(** * Miniplex core: the World and its derived buckets

    A shallow embedding of [packages/miniplex-core/src/World.ts] together
    with the bucket machinery it inherits from [./buckets].

    Entities are JavaScript objects compared by reference, so the model has
    an explicit store: a reference is a key of the store and the object it
    denotes is a finite map from component names to values.  Every function
    that mutates an entity in place rewrites the store at that reference.

    What the model takes for granted:
    - an entity is a plain object, as an object literal or a spread
      creates it: its own fields are writable, deletable data fields, and
      its prototype is [Object.prototype], whose members it inherits and
      which nobody replaces or extends.  No component is named [__proto__],
      the one member of the prototype that is an accessor;
    - the listeners callers register on a bucket observe: they read the
      entity they are handed and do not call back into the World.  What
      each of them is handed is kept in the World's history.  The one
      listener that does change the World is the one its constructor
      registers, and it is modelled as code;
    - the function given to [update] touches only the entity it is given;
    - [nextId] stays below 2^53, where JavaScript's [++] is exact;
    - [./buckets] is not among the sources at hand.  Its part is modelled
      from the specification, and every definition that is says so. *)

From stdpp Require Import gmap strings list fin_maps.

Set Warnings "-clear-no-such-hyp,-register-all".

(** ** Values, objects and the store *)

(** The part of the JavaScript value universe that components range over.
    [VUndefined] is [undefined], the value a read of a field that exists
    nowhere also produces.  [VFunction] is a built-in function object, named
    by the member of [Object.prototype] that holds it. *)
Inductive Value :=
  | VUndefined
  | VNull
  | VBool (b : bool)
  | VNum (n : Z)
  | VStr (s : string)
  | VRef (r : positive)
  | VFunction (name : string).

Definition is_undefined (v : Value) : bool :=
  match v with VUndefined => true | _ => false end.

(** An object is its table of own fields.  A field may exist and hold
    [VUndefined]; that is a different table from one without the field. *)
Abbreviation Obj := (gmap string Value).
Abbreviation Ref := positive.
Abbreviation Store := (gmap positive (gmap string Value)).

(** The data members of [Object.prototype], which every plain object
    inherits: each of them holds a function. *)
Definition inherited : list string :=
  [ "constructor"; "hasOwnProperty"; "isPrototypeOf"; "propertyIsEnumerable";
    "toLocaleString"; "toString"; "valueOf";
    "__defineGetter__"; "__defineSetter__"; "__lookupGetter__"; "__lookupSetter__" ]%string.

(** [Object.prototype[c]] *)
Definition objectPrototype (c : string) : Value :=
  if bool_decide (c ∈ inherited) then VFunction c else VUndefined.

(** [o[c]]: the own field if there is one, whatever it holds; otherwise
    what the prototype holds under that name, [undefined] if nothing. *)
Definition get (o : Obj) (c : string) : Value := default (objectPrototype c) (o !! c).

(** [o[c] !== undefined] *)
Definition present (o : Obj) (c : string) : bool := negb (is_undefined (get o c)).

(** [Object.assign(o, p)]: every own field of [p] is written into [o]. *)
Definition assign (o p : Obj) : Obj := p ∪ o.

(** The object a reference denotes; a reference the store has no entry for
    denotes an object without own fields. *)
Definition deref (h : Store) (e : Ref) : Obj := default ∅ (h !! e).

(** ** Buckets *)

Module Bucket.

(** Modelled from the spec: the query specification of [./buckets] and its
    compilation rule, [matches(e) = (∀c ∈ with: present(e,c)) ∧
    (∀c ∈ without: ¬present(e,c)) ∧ (where ? where(e) : true)]. *)
Record Query := MkQuery {
  q_with : list string;
  q_without : list string;
  q_where : option (Obj → bool)
}.

(** Modelled from the spec: the empty specification of [./buckets], which
    matches every entity and is the predicate of the root bucket. *)
Definition everything : Query := MkQuery [] [] None.

(** Modelled from the spec: the compiled predicate of [./buckets]. *)
Definition matches (q : Query) (o : Obj) : bool :=
  forallb (present o) (q_with q)
  && forallb (λ c, negb (present o c)) (q_without q)
  && match q_where q with Some f => f o | None => true end.

(** Modelled from the spec: composition of specifications in [./buckets],
    the logical AND of the parent's and the new one. *)
Definition conj (p q : Query) : Query :=
  MkQuery (q_with p ++ q_with q) (q_without p ++ q_without q)
    (match q_where p, q_where q with
     | Some f, Some g => Some (λ o, f o && g o)
     | Some f, None => Some f
     | None, g => g
     end).

(** Modelled from the spec: a bucket of [./buckets] is an ordered sequence
    of entities with its registered child buckets; an archetype index also
    holds its compiled predicate.  The root bucket is the one whose
    predicate is [everything]. *)
Inductive Index := MkIndex {
  query : Query;
  members : list Ref;
  children : list Index
}.

(** A bucket is named by the positions leading to it from the root. *)
Abbreviation Path := (list nat).

(** Modelled from the spec: the two event channels of a bucket of
    [./buckets].  An event carries the bucket that fired it, the entity
    handed to the listeners, and the fields that entity has at that moment,
    which is what a listener reading the entity sees. *)
Inductive Event :=
  | EntityAdded (b : Path) (e : Ref) (seen : Obj)
  | EntityRemoved (b : Path) (e : Ref) (seen : Obj).

Definition ev_bucket (ev : Event) : Path :=
  match ev with EntityAdded b _ _ | EntityRemoved b _ _ => b end.
Definition ev_entity (ev : Event) : Ref :=
  match ev with EntityAdded _ e _ | EntityRemoved _ e _ => e end.
Definition ev_seen (ev : Event) : Obj :=
  match ev with EntityAdded _ _ o | EntityRemoved _ _ o => o end.

(** Modelled from the spec: [has(entity)] of [./buckets], membership by
    reference. *)
Definition has (e : Ref) (b : Index) : bool := bool_decide (e ∈ members b).

(** Modelled from the spec: taking an entity out of the sequence of a
    bucket of [./buckets]. *)
Definition drop (e : Ref) (l : list Ref) : list Ref :=
  filter (λ x, x ≠ e) l.

(** Running one bucket operation over the registered children, in
    registration order, collecting the events in the order they fire. *)
Definition each (f : nat → Index → Index * list Event) :
    nat → list Index → list Index * list Event :=
  fix go i cs :=
    match cs with
    | [] => ([], [])
    | c :: cs' =>
        let r := f i c in
        let rs := go (S i) cs' in
        (r.1 :: rs.1, r.2 ++ rs.2)
    end.

(** Modelled from the spec: [remove(entity)] of [./buckets]: no-op if
    absent; otherwise removes from the sequence, fires entity-removed, then
    propagates the removal to all children regardless of their predicate. *)
Fixpoint remove (p : Path) (seen : Obj) (e : Ref) (b : Index) : Index * list Event :=
  match b with
  | MkIndex q ms cs =>
      if bool_decide (e ∈ ms) then
        let rs := each (λ i, remove (p ++ [i]) seen e) 0 cs in
        (MkIndex q (drop e ms) rs.1, EntityRemoved p e seen :: rs.2)
      else (b, [])
  end.

(** Modelled from the spec: [add(entity)] of [./buckets]: appends if the
    predicate holds and the entity is not already present, fires
    entity-added, then notifies all children so that they admit the entity
    if their own predicate holds.  [subject] is the object the predicates
    are evaluated on. *)
Fixpoint add (p : Path) (seen subject : Obj) (e : Ref) (b : Index) : Index * list Event :=
  match b with
  | MkIndex q ms cs =>
      if matches q subject && negb (bool_decide (e ∈ ms)) then
        let rs := each (λ i, add (p ++ [i]) seen subject e) 0 cs in
        (MkIndex q (ms ++ [e]) rs.1, EntityAdded p e seen :: rs.2)
      else (b, [])
  end.

(** Modelled from the spec: [evaluate(entity, hypothetical?)] of
    [./buckets], the reindexing primitive: [wasIn = has(entity)],
    [nowIn = predicate(testSubject)]; a member that no longer matches is
    evicted (the event carries the real entity) and the removal is
    propagated unconditionally; a non-member that matches is admitted and
    the admission propagated; an unchanged member passes the evaluation on
    to its children. *)
Fixpoint evaluate (p : Path) (seen subject : Obj) (e : Ref) (b : Index) : Index * list Event :=
  match b with
  | MkIndex q ms cs =>
      let wasIn := bool_decide (e ∈ ms) in
      let nowIn := matches q subject in
      if wasIn && negb nowIn then
        let rs := each (λ i, remove (p ++ [i]) seen e) 0 cs in
        (MkIndex q (drop e ms) rs.1, EntityRemoved p e seen :: rs.2)
      else if negb wasIn && nowIn then
        let rs := each (λ i, add (p ++ [i]) seen subject e) 0 cs in
        (MkIndex q (ms ++ [e]) rs.1, EntityAdded p e seen :: rs.2)
      else if wasIn then
        let rs := each (λ i, evaluate (p ++ [i]) seen subject e) 0 cs in
        (MkIndex q ms rs.1, rs.2)
      else (b, [])
  end.

(** Modelled from the spec: [archetypeOf(sourceBucket, spec)] of
    [./buckets]: a new index registered in the source's child list, whose
    specification is the AND of the source's and the new one, initialised by
    scanning the source's current members. *)
Definition derive (h : Store) (q : Query) (b : Index) : Index :=
  let q' := conj (query b) q in
  MkIndex (query b) (members b)
    (children b ++ [MkIndex q' (filter (λ e, matches q' (deref h e) = true) (members b)) []]).

(** Deriving from the bucket a path names; a path that names no bucket
    derives nothing. *)
Fixpoint derive_at (h : Store) (q : Query) (p : Path) (b : Index) : Index :=
  match p with
  | [] => derive h q b
  | i :: p' =>
      MkIndex (query b) (members b) (alter (derive_at h q p') i (children b))
  end.

(** Every bucket of a tree, the root first. *)
Fixpoint indexes (b : Index) : list Index :=
  match b with
  | MkIndex _ _ cs => b :: flat_map indexes cs
  end.

(** The subset relation between a bucket and its parent, over a whole
    tree. *)
Fixpoint nested (b : Index) : bool :=
  match b with
  | MkIndex _ ms cs =>
      forallb (λ c, bool_decide (members c ⊆ ms) && nested c) cs
  end.

(** Every event of an operation for [e] carries [e] and the fields it was
    given, and is fired by the bucket at [p] or below it. *)
Definition carries (p : Path) (seen : Obj) (e : Ref) (ev : Event) : Prop :=
  ev_entity ev = e ∧ ev_seen ev = seen ∧ length p ≤ length (ev_bucket ev).

(** The invariant as the specification words it: each child's entities
    are among its parent's, for every bucket of the tree. *)
Definition Subset (b : Index) : Prop :=
  ∀ parent child, parent ∈ indexes b → child ∈ children parent →
    members child ⊆ members parent.

End Bucket.

(** ** The World *)

Module World.

(** One line of the observable history of a World: an event delivered to
    the listeners of a bucket, or a reindexing pass started on the root
    bucket with the object its predicates were evaluated on. *)
Inductive Entry :=
  | Fired (ev : Bucket.Event)
  | Evaluated (e : Ref) (subject : Obj).

(** [class World extends EntityBucket]: the root bucket (its sequence of
    entities and its derived indexes), the identity table of World.ts
    ([entityToId], [idToEntity], [nextId]), the store the entities live in
    and the history.  [nextId] is a JavaScript number counting up from 0 by
    one; it is a natural number here, exact below 2^53. *)
Record t := Mk {
  store : Store;
  entities : list Ref;
  archetypes : list Bucket.Index;
  entityToId : gmap positive nat;
  idToEntity : gmap nat positive;
  nextId : nat;
  history : list Entry
}.

(** The World seen as the bucket it extends; its predicate is always
    true. *)
Definition root (w : t) : Bucket.Index :=
  Bucket.MkIndex Bucket.everything (entities w) (archetypes w).

Definition with_root (b : Bucket.Index) (w : t) : t :=
  Mk (store w) (Bucket.members b) (Bucket.children b)
     (entityToId w) (idToEntity w) (nextId w) (history w).

Definition with_store (h : Store) (w : t) : t :=
  Mk h (entities w) (archetypes w) (entityToId w) (idToEntity w) (nextId w) (history w).

Definition record (x : Entry) (w : t) : t :=
  Mk (store w) (entities w) (archetypes w) (entityToId w) (idToEntity w) (nextId w)
     (history w ++ [x]).

(** The fields of an entity as they are now. *)
Definition fields (w : t) (e : Ref) : Obj := deref (store w) e.

(** The entity is mutated in place. *)
Definition write (e : Ref) (o : Obj) (w : t) : t :=
  with_store (<[e := o]> (store w)) w.

(** Modelled from the spec: [this.has(entity)], which the World inherits
    from the bucket of [./buckets]. *)
Definition has (e : Ref) (w : t) : bool := Bucket.has e (root w).

(** The listener the constructor registers on the World's own
    [onEntityRemoved] (World.ts lines 8-15): forget the entity's id. *)
Definition forget (e : Ref) (w : t) : t :=
  match entityToId w !! e with
  | Some n =>
      Mk (store w) (entities w) (archetypes w)
         (delete e (entityToId w)) (delete n (idToEntity w)) (nextId w) (history w)
  | None => w
  end.

(** Modelled from the spec: the event channels of [./buckets] invoke their
    listeners synchronously, in firing order.  Delivering one event runs the
    listeners of the bucket that fired it: the only listener the World
    itself registers is [forget], on the root bucket's entity-removed
    channel; the listeners of callers are observers and see what the
    history line records. *)
Definition deliver (ev : Bucket.Event) (w : t) : t :=
  let w' :=
    match ev with
    | Bucket.EntityRemoved [] e _ => forget e w
    | _ => w
    end in
  record (Fired ev) w'.

Definition deliver_all (evs : list Bucket.Event) (w : t) : t :=
  foldl (λ w ev, deliver ev w) w evs.

(** [new World(entities)] (World.ts lines 4-16) in a store [h]. *)
Definition new (h : Store) (es : list Ref) : t :=
  Mk h es [] ∅ ∅ 0 [].

(** Modelled from the spec: [world.add(entity)], inherited from the bucket
    of [./buckets]; the predicates see the entity as it is, and the events
    are delivered in the order they fire. *)
Definition add (e : Ref) (w : t) : Ref * t :=
  let r := Bucket.add [] (fields w e) (fields w e) e (root w) in
  (e, deliver_all r.2 (with_root r.1 w)).

(** Modelled from the spec: [world.remove(entity)], inherited from the
    bucket of [./buckets]. *)
Definition remove (e : Ref) (w : t) : t :=
  let r := Bucket.remove [] (fields w e) e (root w) in
  deliver_all r.2 (with_root r.1 w).

(** Modelled from the spec: [this.evaluate(entity, future?)], inherited
    from the bucket of [./buckets]: the test subject is [future ?? entity],
    the events carry the entity itself. *)
Definition evaluate (e : Ref) (future : option Obj) (w : t) : t :=
  let subject := default (fields w e) future in
  let r := Bucket.evaluate [] (fields w e) subject e (root w) in
  deliver_all r.2 (with_root r.1 (record (Evaluated e subject) w)).

(** The second argument of [update] (World.ts lines 26-30): nothing, a
    function, a component name with a value, or a partial entity.  A
    function receives the entity, may mutate it in place, and returns a
    partial entity or nothing: [f o = (o', r)] says that called on an entity
    with fields [o] it leaves the entity with fields [o'] and returns [r]. *)
Inductive Update :=
  | UNothing
  | UFunction (f : Obj → Obj * option Obj)
  | UComponent (c : string) (v : Value)
  | UPartial (p : Obj).

(** World.ts lines 26-46. *)
Definition update (e : Ref) (u : Update) (w : t) : Ref * t :=
  let w1 :=
    match u with
    | UFunction f =>
        let r := f (fields w e) in
        let w' := write e r.1 w in
        match r.2 with
        | Some partial => write e (assign (fields w' e) partial) w'
        | None => w'
        end
    | UComponent c v => write e (<[c := v]> (fields w e)) w
    | UPartial p => write e (assign (fields w e) p) w
    | UNothing => w
    end in
  let w2 := if has e w1 then evaluate e None w1 else w1 in
  (e, w2).

(** World.ts lines 48-59. *)
Definition addComponent (e : Ref) (c : string) (v : Value) (w : t) : t :=
  if negb (is_undefined (get (fields w e) c)) then w
  else
    let w1 := write e (<[c := v]> (fields w e)) w in
    if has e w1 then evaluate e None w1 else w1.

(** World.ts lines 61-74. *)
Definition removeComponent (e : Ref) (c : string) (w : t) : t :=
  if is_undefined (get (fields w e) c) then w
  else
    let w1 :=
      if has e w then
        let future := delete c (fields w e) in
        evaluate e (Some future) w
      else w in
    write e (delete c (fields w1 e)) w1.

(** World.ts lines 81-93. *)
Definition id (e : Ref) (w : t) : option nat * t :=
  if negb (has e w) then (None, w)
  else
    let w1 :=
      if negb (bool_decide (is_Some (entityToId w !! e))) then
        let n := nextId w in
        Mk (store w) (entities w) (archetypes w)
           (<[e := n]> (entityToId w)) (<[n := e]> (idToEntity w)) (S n) (history w)
      else w in
    (entityToId w1 !! e, w1).

(** World.ts lines 95-97. *)
Definition entity (n : nat) (w : t) : option Ref := idToEntity w !! n.

(** Modelled from the spec: [archetype(spec)], [with(...)] and
    [without(...)] of [./buckets], called on the bucket [p] names. *)
Definition archetype (p : Bucket.Path) (q : Bucket.Query) (w : t) : t :=
  with_root (Bucket.derive_at (store w) q p (root w)) w.

(** What a caller can do to a World between two observations: the public
    operations, deriving an index, and mutating an entity behind the
    World's back. *)
Inductive Op :=
  | OAdd (e : Ref)
  | ORemove (e : Ref)
  | OUpdate (e : Ref) (u : Update)
  | OAddComponent (e : Ref) (c : string) (v : Value)
  | ORemoveComponent (e : Ref) (c : string)
  | OId (e : Ref)
  | OEntity (n : nat)
  | OArchetype (p : Bucket.Path) (q : Bucket.Query)
  | OMutate (e : Ref) (o : Obj).

Definition step (op : Op) (w : t) : t :=
  match op with
  | OAdd e => (add e w).2
  | ORemove e => remove e w
  | OUpdate e u => (update e u w).2
  | OAddComponent e c v => addComponent e c v w
  | ORemoveComponent e c => removeComponent e c w
  | OId e => (id e w).2
  | OEntity n => w
  | OArchetype p q => archetype p q w
  | OMutate e o => write e o w
  end.

Definition run (ops : list Op) (w : t) : t :=
  foldl (λ w op, step op w) w ops.

(** The states a World can be in. *)
Inductive Reachable : t → Prop :=
  | reachable_new h es : Reachable (new h es)
  | reachable_step op w : Reachable w → Reachable (step op w).

(** The entity is tracked now and after each of the operations. *)
Fixpoint stays (e : Ref) (ops : list Op) (w : t) : bool :=
  match ops with
  | [] => has e w
  | op :: ops' => has e w && stays e ops' (step op w)
  end.

(** Every derived index of the World, at any depth. *)
Definition derived (w : t) : list Bucket.Index :=
  flat_map Bucket.indexes (archetypes w).

End World.

(** ** Predicates on a World *)

(** An event that does not reach the listener the World registers on its
    own removal channel. *)
Definition quiet (ev : Bucket.Event) : Prop :=
  ¬ ∃ e o, ev = Bucket.EntityRemoved [] e o.

(** The identity table of a World. *)
Definition ids (w : World.t) : gmap positive nat * gmap nat positive * nat :=
  (World.entityToId w, World.idToEntity w, World.nextId w).

(** The two maps are each other's inverse and hold only numbers the
    counter has passed. *)
Definition Inverse (w : World.t) : Prop :=
  (∀ e n, World.entityToId w !! e = Some n ↔ World.idToEntity w !! n = Some e)
  ∧ (∀ e n, World.entityToId w !! e = Some n → n < World.nextId w).

(** The subset relation holds throughout the World's tree of buckets. *)
Definition Nested (w : World.t) : Prop := Bucket.nested (World.root w) = true.

(** ** The React bindings

    [packages/miniplex-react/src/createReactAPI.tsx] drives the World from
    React effects.  An effect is modelled by what its body does to the World
    when React runs it, together with the cleanup it returns, if it returns
    one; React runs the effects of a component in the order they are
    declared when it mounts, and the cleanups when it unmounts. *)

Module ReactAPI.

(** What running an effect gives: the World after it and its cleanup. *)
Abbreviation Ran := (World.t * option (World.t → World.t))%type.


(** The effect of [RawEntity] (createReactAPI.tsx lines 41-48). *)
Definition entityEffect (entity : Ref) (w : World.t) : Ran :=
  if World.has entity w then (w, None)
  else ((World.add entity w).2, Some (World.remove entity)).





(** The keys [Entities] gives its children (lines 73-75):
    [entities.map((entity) => world.id(entity))], left to right. *)
Fixpoint keys (entities : list Ref) (w : World.t) : list (option nat) * World.t :=
  match entities with
  | [] => ([], w)
  | entity :: rest =>
      let r := World.id entity w in
      let rs := keys rest r.2 in
      (r.1 :: rs.1, rs.2)
  end.

End ReactAPI.

(** ** The documentation site

    The navigation of the documentation site derives the link of a page
    from the path of its file (the site's root component, in
    [MainNavigation]): the key without its first ["./routes".length]
    characters, in which the first match of [/\.mdx?$/] is replaced by the
    empty string. *)

Module Site.

(** [s.slice(n)] for [0 <= n]: the string without its first [n]
    characters. *)
Fixpoint slice (n : nat) (s : string) : string :=
  match n, s with
  | 0, _ => s
  | S n', String _ s' => slice n' s'
  | S _, EmptyString => EmptyString
  end.

(** Replacing the first match of [/\.mdx?$/] by the empty string.  The
    pattern is anchored at the end, so it matches at a position exactly when
    what is left of the string from there is [.md] or [.mdx]; the leftmost
    such position is the one replaced. *)
Fixpoint stripMarkdown (s : string) : string :=
  if (String.eqb s ".md" || String.eqb s ".mdx")%bool then EmptyString
  else
    match s with
    | EmptyString => EmptyString
    | String a s' => String a (stripMarkdown s')
    end.

(** The [href] of the page whose file is [key]. *)
Definition href (key : string) : string :=
  stripMarkdown (slice (String.length "./routes") key).

End Site.

(** ** A small World to run the operations on *)

Module Demo.
Local Open Scope string_scope.

Definition john : Obj := {[ "name" := VStr "John"; "age" := VNum 30 ]}.
Definition jane : Obj := {[ "name" := VStr "Jane"; "age" := VNum 35 ]}.
(** An entity whose [age] was set to [undefined] by hand. *)
Definition ghost : Obj := {[ "name" := VStr "Ghost"; "age" := VUndefined ]}.

Definition heap : Store := {[ 1%positive := john; 2%positive := jane; 3%positive := ghost ]}.

Definition withAge : Bucket.Query := Bucket.MkQuery ["age"] [] None.
Definition withName : Bucket.Query := Bucket.MkQuery ["name"] [] None.
Definition withoutAge : Bucket.Query := Bucket.MkQuery [] ["age"] None.

(** [world.with("age")], [world.with("age").with("name")] and
    [world.without("age")], then John, Jane and the ghost are added; a
    fourth entity stays outside. *)
Definition setup : list World.Op :=
  [ World.OArchetype [] withAge;
    World.OArchetype [0] withName;
    World.OArchetype [] withoutAge;
    World.OAdd 1; World.OAdd 2; World.OAdd 3 ].

Definition world : World.t := World.run setup (World.new heap []).

End Demo.

(** * Properties *)

(** ** Objects *)

Lemma get_insert_eq (o : Obj) c v : get (<[c := v]> o) c = v.
Proof. unfold get. by rewrite lookup_insert_eq. Qed.


Lemma deref_insert_eq (h : Store) e o : deref (<[e := o]> h) e = o.
Proof. unfold deref. by rewrite lookup_insert_eq. Qed.

Lemma deref_insert_ne (h : Store) e e' o : e ≠ e' → deref (<[e := o]> h) e' = deref h e'.
Proof. intros ?. unfold deref. by rewrite lookup_insert_ne. Qed.

Lemma is_undefined_true v : is_undefined v = true ↔ v = VUndefined.
Proof. destruct v; naive_solver. Qed.

(** ** Buckets *)

Module BucketFacts.
Import Bucket.

(** Induction over a tree of buckets: the property may be assumed of every
    registered child. *)
Lemma Index_tree_ind (P : Index → Prop) :
  (∀ q ms cs, (∀ c, c ∈ cs → P c) → P (MkIndex q ms cs)) → ∀ b, P b.
Proof.
  intros step. fix IH 1. intros [q ms cs]. apply step.
  apply Forall_forall.
  induction cs as [|c cs IHcs]; constructor; [apply IH | exact IHcs].
Qed.

Lemma each_children f i cs c' :
  c' ∈ (each f i cs).1 → ∃ j c, c ∈ cs ∧ c' = (f j c).1.
Proof.
  revert i. induction cs as [|c cs IH]; intros i; simpl.
  - intros Hnil. by apply elem_of_nil in Hnil.
  - intros Hin; apply elem_of_cons in Hin as [-> | Hin].
    + exists i, c. split; [left | done].
    + destruct (IH _ Hin) as (j & d & Hd & ->). exists j, d. split; [by right | done].
Qed.

Lemma each_events f i cs ev :
  ev ∈ (each f i cs).2 → ∃ j c, c ∈ cs ∧ ev ∈ (f j c).2.
Proof.
  revert i. induction cs as [|c cs IH]; intros i; simpl.
  - intros Hnil. by apply elem_of_nil in Hnil.
  - intros Hin; apply elem_of_app in Hin as [Hin | Hin].
    + exists i, c. split; [left | done].
    + destruct (IH _ Hin) as (j & d & Hd & Hev). exists j, d. split; [by right | done].
Qed.

Lemma drop_elem e x l : x ∈ drop e l ↔ x ∈ l ∧ x ≠ e.
Proof. unfold drop. rewrite list_elem_of_filter. tauto. Qed.

Lemma drop_absent e l : e ∉ l → drop e l = l.
Proof.
  intros Hl. unfold drop. induction l as [|x l IH]; [done|].
  apply not_elem_of_cons in Hl as [Hne Hl].
  rewrite filter_cons_True; [|done]. by rewrite IH.
Qed.

(** *** What the events of a bucket operation carry *)

Lemma carries_child p i seen e ev :
  carries (p ++ [i]) seen e ev → carries p seen e ev.
Proof. unfold carries. rewrite length_app. simpl. intros (? & ? & ?). repeat split; [done..|lia]. Qed.

Lemma remove_events seen e b :
  ∀ p ev, ev ∈ (remove p seen e b).2 → carries p seen e ev.
Proof.
  induction b as [q ms cs IH] using Index_tree_ind. intros p ev. simpl.
  case_bool_decide; simpl; [|intros Hnil; by apply elem_of_nil in Hnil].
  intros Hin; apply elem_of_cons in Hin as [-> | Hin]; [by repeat split|].
  apply each_events in Hin as (j & c & Hc & Hev).
  eapply carries_child, IH; eauto.
Qed.

Lemma add_events seen subject e b :
  ∀ p ev, ev ∈ (add p seen subject e b).2 → carries p seen e ev.
Proof.
  induction b as [q ms cs IH] using Index_tree_ind. intros p ev. simpl.
  destruct (matches q subject && negb (bool_decide (e ∈ ms))); simpl;
    [|intros Hnil; by apply elem_of_nil in Hnil].
  intros Hin; apply elem_of_cons in Hin as [-> | Hin]; [by repeat split|].
  apply each_events in Hin as (j & c & Hc & Hev).
  eapply carries_child, IH; eauto.
Qed.

Lemma evaluate_events seen subject e b :
  ∀ p ev, ev ∈ (evaluate p seen subject e b).2 → carries p seen e ev.
Proof.
  induction b as [q ms cs IH] using Index_tree_ind. intros p ev. simpl.
  destruct (bool_decide (e ∈ ms)), (matches q subject); simpl.
  - intros Hin. apply each_events in Hin as (j & c & Hc & Hev).
    eapply carries_child, IH; eauto.
  - intros Hin; apply elem_of_cons in Hin as [-> | Hin]; [by repeat split|].
    apply each_events in Hin as (j & c & Hc & Hev).
    eapply carries_child, remove_events; eauto.
  - intros Hin; apply elem_of_cons in Hin as [-> | Hin]; [by repeat split|].
    apply each_events in Hin as (j & c & Hc & Hev).
    eapply carries_child, add_events; eauto.
  - intros Hnil. by apply elem_of_nil in Hnil.
Qed.

(** *** Membership after a bucket operation *)

Lemma remove_members p seen e b :
  members (remove p seen e b).1 = drop e (members b).
Proof.
  destruct b as [q ms cs]. simpl.
  case_bool_decide; simpl; [done | by rewrite drop_absent].
Qed.

Lemma add_members p seen subject e b x :
  x ∈ members (add p seen subject e b).1 ↔ x ∈ members b ∨
    (x = e ∧ matches (query b) subject = true).
Proof.
  destruct b as [q ms cs]. simpl.
  destruct (matches q subject) eqn:Hm; case_bool_decide; simpl;
    rewrite ?elem_of_app, ?list_elem_of_singleton; naive_solver.
Qed.

Lemma evaluate_members p seen subject e b x :
  x ∈ members (evaluate p seen subject e b).1 ↔
    (x ≠ e ∧ x ∈ members b) ∨ (x = e ∧ matches (query b) subject = true).
Proof.
  destruct b as [q ms cs]. simpl.
  destruct (matches q subject) eqn:Hm; case_bool_decide; simpl;
    rewrite ?elem_of_app, ?list_elem_of_singleton, ?drop_elem;
    destruct (decide (x = e)); naive_solver.
Qed.

Lemma remove_query p seen e b : query (remove p seen e b).1 = query b.
Proof. destruct b as [q ms cs]. simpl. by case_bool_decide. Qed.

Lemma add_query p seen subject e b : query (add p seen subject e b).1 = query b.
Proof.
  destruct b as [q ms cs]. simpl.
  by destruct (matches q subject && negb (bool_decide (e ∈ ms))).
Qed.

Lemma evaluate_query p seen subject e b :
  query (evaluate p seen subject e b).1 = query b.
Proof.
  destruct b as [q ms cs]. simpl.
  by destruct (bool_decide (e ∈ ms)), (matches q subject).
Qed.

(** *** The subset relation between a bucket and its parent *)

Lemma nested_unfold q ms cs :
  nested (MkIndex q ms cs) = true ↔
  ∀ c, c ∈ cs → members c ⊆ ms ∧ nested c = true.
Proof.
  simpl. rewrite forallb_forall. split.
  - intros H c Hc. apply list_elem_of_In, H in Hc.
    apply andb_true_iff in Hc as [Hs Hn]. by apply bool_decide_eq_true in Hs.
  - intros H c Hc. apply list_elem_of_In, H in Hc as [Hs Hn].
    apply andb_true_iff. split; [by apply bool_decide_eq_true | done].
Qed.

Lemma indexes_unfold q ms cs x :
  x ∈ indexes (MkIndex q ms cs) ↔
  x = MkIndex q ms cs ∨ ∃ c, c ∈ cs ∧ x ∈ indexes c.
Proof.
  simpl. rewrite elem_of_cons, list_elem_of_In, in_flat_map.
  setoid_rewrite <- list_elem_of_In. reflexivity.
Qed.

Lemma indexes_self b : b ∈ indexes b.
Proof. destruct b. apply indexes_unfold. by left. Qed.

Lemma nested_Subset b : nested b = true ↔ Subset b.
Proof.
  induction b as [q ms cs IH] using Index_tree_ind.
  rewrite nested_unfold. unfold Subset. split.
  - intros H parent child Hp Hc. apply indexes_unfold in Hp as [-> | (c & Hcs & Hp)].
    + by apply H.
    + destruct (H c Hcs) as [_ Hn]. apply (IH c Hcs) in Hn. by apply Hn.
  - intros H c Hc. split.
    + apply (H (MkIndex q ms cs)); [apply indexes_self | done].
    + apply (IH c Hc). intros parent child Hp Hch.
      apply H; [|done]. apply indexes_unfold. right. eauto.
Qed.

Lemma remove_nested seen e b :
  nested b = true → ∀ p, nested (remove p seen e b).1 = true.
Proof.
  induction b as [q ms cs IH] using Index_tree_ind. intros Hn p.
  simpl. case_bool_decide; [|done]. simpl (_.1).
  rewrite nested_unfold in Hn. apply nested_unfold. intros c' Hc'.
  apply each_children in Hc' as (j & c & Hc & ->).
  destruct (Hn c Hc) as [Hs Hnc]. split; [|by apply IH].
  rewrite remove_members. intros x Hx. apply drop_elem in Hx as [Hx Hne].
  apply drop_elem. split; [by apply Hs | done].
Qed.

Lemma add_nested seen subject e b :
  nested b = true → ∀ p, nested (add p seen subject e b).1 = true.
Proof.
  induction b as [q ms cs IH] using Index_tree_ind. intros Hn p.
  simpl. destruct (matches q subject && negb (bool_decide (e ∈ ms))); [|done].
  simpl (_.1). rewrite nested_unfold in Hn. apply nested_unfold. intros c' Hc'.
  apply each_children in Hc' as (j & c & Hc & ->).
  destruct (Hn c Hc) as [Hs Hnc]. split; [|by apply IH].
  intros x Hx. apply add_members in Hx as [Hx | [-> _]]; apply elem_of_app.
  - left. by apply Hs.
  - right. by apply list_elem_of_singleton.
Qed.

Lemma evaluate_nested seen subject e b :
  nested b = true → ∀ p, nested (evaluate p seen subject e b).1 = true.
Proof.
  induction b as [q ms cs IH] using Index_tree_ind. intros Hn p.
  simpl. rewrite nested_unfold in Hn.
  destruct (bool_decide (e ∈ ms)) eqn:He, (matches q subject); simpl (_.1);
    try (by apply nested_unfold); apply nested_unfold; intros c' Hc';
    apply each_children in Hc' as (j & c & Hc & ->);
    destruct (Hn c Hc) as [Hs Hnc].
  - apply bool_decide_eq_true in He. split; [|by apply IH].
    intros x Hx. apply evaluate_members in Hx as [[_ Hx] | [-> _]]; [by apply Hs | done].
  - split; [|by apply remove_nested].
    rewrite remove_members. intros x Hx. apply drop_elem in Hx as [Hx Hne].
    apply drop_elem. split; [by apply Hs | done].
  - split; [|by apply add_nested].
    intros x Hx. apply add_members in Hx as [Hx | [-> _]]; apply elem_of_app.
    + left. by apply Hs.
    + right. by apply list_elem_of_singleton.
Qed.

(** *** Deriving an index *)

Lemma alter_children (f : Index → Index) (i : nat) (cs : list Index) c' :
  c' ∈ alter f i cs → c' ∈ cs ∨ ∃ c, c ∈ cs ∧ c' = f c.
Proof.
  revert i. induction cs as [|c cs IH]; intros i Hin.
  - by apply elem_of_nil in Hin.
  - destruct i as [|i]; simpl in Hin; apply elem_of_cons in Hin as [-> | Hin].
    + right. exists c. split; [left | done].
    + left. by right.
    + left. left.
    + destruct (IH _ Hin) as [Hc | (d & Hd & ->)].
      * left. by right.
      * right. exists d. split; [by right | done].
Qed.

Lemma derive_at_members h q p b : members (derive_at h q p b) = members b.
Proof. by destruct p. Qed.

Lemma derive_at_nested h q p :
  ∀ b, nested b = true → nested (derive_at h q p b) = true.
Proof.
  induction p as [|i p IH]; intros [q0 ms cs] Hn;
    cbn [derive_at derive query members children];
    rewrite nested_unfold in Hn; apply nested_unfold; intros c' Hc'.
  - apply elem_of_app in Hc' as [Hc' | Hc']; [by apply Hn|].
    apply list_elem_of_singleton in Hc' as ->. split; [|done].
    simpl. intros x Hx. by apply list_elem_of_filter in Hx as [_ Hx].
  - apply alter_children in Hc' as [Hc' | (c & Hc & ->)]; [by apply Hn|].
    destruct (Hn c Hc) as [Hs Hnc]. rewrite derive_at_members. split; [done|].
    by apply IH.
Qed.

(** *** Buckets that require a component the entity lacks *)

Lemma nested_absent e b :
  nested b = true → e ∉ members b → ∀ x, x ∈ indexes b → e ∉ members x.
Proof.
  induction b as [q ms cs IH] using Index_tree_ind. intros Hn He x Hx.
  rewrite nested_unfold in Hn.
  apply indexes_unfold in Hx as [-> | (c & Hc & Hx)]; [done|].
  destruct (Hn c Hc) as [Hs Hnc]. apply (IH c Hc); [done | | done].
  intros Hec. by apply He, Hs.
Qed.

Lemma remove_absent seen e b :
  nested b = true →
  ∀ p x, x ∈ indexes (remove p seen e b).1 → e ∉ members x.
Proof.
  induction b as [q ms cs IH] using Index_tree_ind. intros Hn p x. simpl.
  case_bool_decide as He.
  - simpl (_.1). intros Hx. rewrite nested_unfold in Hn.
    apply indexes_unfold in Hx as [-> | (c' & Hc' & Hx)].
    + simpl. rewrite drop_elem. tauto.
    + apply each_children in Hc' as (j & c & Hc & ->).
      destruct (Hn c Hc) as [_ Hnc]. by eapply (IH c Hc).
  - intros Hx. by eapply nested_absent.
Qed.

Lemma matches_requires q o c :
  matches q o = true → c ∈ q_with q → present o c = true.
Proof.
  unfold matches. intros Hm Hc.
  apply andb_true_iff in Hm as [Hm _]. apply andb_true_iff in Hm as [Hm _].
  rewrite forallb_forall in Hm. by apply Hm, list_elem_of_In.
Qed.

Lemma add_requiring seen subject e c b :
  present subject c = false → nested b = true → e ∉ members b →
  ∀ p x, x ∈ indexes (add p seen subject e b).1 →
    c ∈ q_with (query x) → e ∉ members x.
Proof.
  intros Habs. induction b as [q ms cs IH] using Index_tree_ind.
  intros Hn He p x. simpl.
  destruct (matches q subject) eqn:Hm; case_bool_decide as Hin; simpl;
    try (intros Hx _; by eapply nested_absent).
  rewrite nested_unfold in Hn. simpl in He.
  intros Hx Hreq. apply indexes_unfold in Hx as [-> | (c' & Hc' & Hx)].
  - simpl in Hreq. apply (matches_requires _ _ _ Hm) in Hreq. congruence.
  - apply each_children in Hc' as (j & d & Hd & ->).
    destruct (Hn d Hd) as [Hs Hnd].
    eapply (IH d Hd); [done | | done..]. intros Hed. by apply He, Hs.
Qed.

Lemma evaluate_requiring seen subject e c b :
  present subject c = false → nested b = true →
  ∀ p x, x ∈ indexes (evaluate p seen subject e b).1 →
    c ∈ q_with (query x) → e ∉ members x.
Proof.
  intros Habs. induction b as [q ms cs IH] using Index_tree_ind.
  intros Hn p x. simpl.
  pose proof Hn as Hn'. rewrite nested_unfold in Hn'.
  case_bool_decide as He; destruct (matches q subject) eqn:Hm; simpl;
    intros Hx Hreq.
  - apply indexes_unfold in Hx as [-> | (c' & Hc' & Hx)].
    + simpl in Hreq. apply (matches_requires _ _ _ Hm) in Hreq. congruence.
    + apply each_children in Hc' as (j & d & Hd & ->).
      destruct (Hn' d Hd) as [_ Hnd]. by eapply (IH d Hd).
  - apply indexes_unfold in Hx as [-> | (c' & Hc' & Hx)].
    + simpl. rewrite drop_elem. tauto.
    + apply each_children in Hc' as (j & d & Hd & ->).
      destruct (Hn' d Hd) as [_ Hnd]. by eapply remove_absent.
  - apply indexes_unfold in Hx as [-> | (c' & Hc' & Hx)].
    + simpl in Hreq. apply (matches_requires _ _ _ Hm) in Hreq. congruence.
    + apply each_children in Hc' as (j & d & Hd & ->).
      destruct (Hn' d Hd) as [Hs Hnd].
      eapply add_requiring; [done | done | | done..]. intros Hed. by apply He, Hs.
  - by eapply nested_absent.
Qed.

End BucketFacts.

(** ** The World: delivery of events and the reindexing pass *)

Module WorldFacts.
Import BucketFacts.

Lemma quiet_added p e o : quiet (Bucket.EntityAdded p e o).
Proof. intros (? & ? & ?). discriminate. Qed.

Lemma quiet_below p i seen e ev : Bucket.carries (p ++ [i]) seen e ev → quiet ev.
Proof.
  intros (_ & _ & Hlen) (e' & o & ->). simpl in Hlen.
  rewrite length_app in Hlen. simpl in Hlen. lia.
Qed.

Lemma deliver_quiet ev w : quiet ev → World.deliver ev w = World.record (World.Fired ev) w.
Proof.
  intros Hq. unfold World.deliver. destruct ev as [|[|] e o]; try done.
  exfalso. apply Hq. eauto.
Qed.

Lemma deliver_all_quiet evs : ∀ w,
  (∀ ev, ev ∈ evs → quiet ev) →
  World.deliver_all evs w =
  World.Mk (World.store w) (World.entities w) (World.archetypes w)
    (World.entityToId w) (World.idToEntity w) (World.nextId w)
    (World.history w ++ map World.Fired evs).
Proof.
  induction evs as [|ev evs IH]; intros w Hq; simpl.
  - rewrite app_nil_r. by destruct w.
  - rewrite deliver_quiet by (apply Hq; left).
    rewrite IH by (intros ? ?; apply Hq; by right).
    simpl. by rewrite <- app_assoc.
Qed.

(** Delivery never touches the store, the buckets or the counter. *)
Lemma deliver_all_frame evs : ∀ w,
  World.store (World.deliver_all evs w) = World.store w ∧
  World.entities (World.deliver_all evs w) = World.entities w ∧
  World.archetypes (World.deliver_all evs w) = World.archetypes w ∧
  World.nextId (World.deliver_all evs w) = World.nextId w ∧
  World.history (World.deliver_all evs w) = World.history w ++ map World.Fired evs.
Proof.
  induction evs as [|ev evs IH]; intros w; simpl.
  - by rewrite app_nil_r.
  - destruct (IH (World.deliver ev w)) as (-> & -> & -> & -> & ->).
    assert (World.store (World.deliver ev w) = World.store w ∧
            World.entities (World.deliver ev w) = World.entities w ∧
            World.archetypes (World.deliver ev w) = World.archetypes w ∧
            World.nextId (World.deliver ev w) = World.nextId w ∧
            World.history (World.deliver ev w) = World.history w ++ [World.Fired ev])
      as (-> & -> & -> & -> & ->).
    { unfold World.deliver, World.forget.
      destruct ev as [|[|] e o]; simpl; try done.
      by destruct (World.entityToId w !! e). }
    by rewrite <- app_assoc.
Qed.

Lemma with_root_root w : World.with_root (World.root w) w = w.
Proof. by destruct w. Qed.

Lemma matches_everything o : Bucket.matches Bucket.everything o = true.
Proof. done. Qed.

(** The events of adding to the root bucket are quiet. *)
Lemma add_root_quiet seen subject e b ev :
  ev ∈ (Bucket.add [] seen subject e b).2 → quiet ev.
Proof.
  destruct b as [q ms cs]. simpl.
  destruct (Bucket.matches q subject && negb (bool_decide (e ∈ ms))); simpl;
    intros Hin; [|by apply elem_of_nil in Hin].
  apply elem_of_cons in Hin as [-> | Hin]; [apply quiet_added|].
  apply each_events in Hin as (j & c & _ & Hev).
  apply add_events in Hev. by apply (quiet_below [] j seen e).
Qed.

(** The root bucket never evicts: the events of a reindexing pass are
    quiet. *)
Lemma evaluate_root_quiet seen subject e ms cs ev :
  ev ∈ (Bucket.evaluate [] seen subject e (Bucket.MkIndex Bucket.everything ms cs)).2 →
  quiet ev.
Proof.
  simpl. case_bool_decide; simpl; intros Hin.
  - apply each_events in Hin as (j & c & _ & Hev).
    apply evaluate_events in Hev. by apply (quiet_below [] j seen e).
  - apply elem_of_cons in Hin as [-> | Hin]; [apply quiet_added|].
    apply each_events in Hin as (j & c & _ & Hev).
    apply add_events in Hev. by apply (quiet_below [] j seen e).
Qed.

(** What a reindexing pass changes: the buckets below the root and the
    history, nothing else. *)
Lemma evaluate_spec e future w :
  let subject := default (World.fields w e) future in
  let r := Bucket.evaluate [] (World.fields w e) subject e (World.root w) in
  World.evaluate e future w =
  World.Mk (World.store w) (Bucket.members r.1) (Bucket.children r.1)
    (World.entityToId w) (World.idToEntity w) (World.nextId w)
    (World.history w ++ World.Evaluated e subject :: map World.Fired r.2).
Proof.
  intros subject r. unfold World.evaluate. fold subject. fold r.
  rewrite deliver_all_quiet.
  - simpl. by rewrite <- app_assoc.
  - intros ev. apply evaluate_root_quiet.
Qed.

Lemma evaluate_entities e future w :
  World.has e w = true →
  World.entities (World.evaluate e future w) = World.entities w.
Proof.
  intros Hhas. rewrite evaluate_spec. simpl.
  unfold World.has, Bucket.has in Hhas. simpl in Hhas. by rewrite Hhas.
Qed.

Lemma add_spec e w :
  let r := Bucket.add [] (World.fields w e) (World.fields w e) e (World.root w) in
  (World.add e w).2 =
  World.Mk (World.store w) (Bucket.members r.1) (Bucket.children r.1)
    (World.entityToId w) (World.idToEntity w) (World.nextId w)
    (World.history w ++ map World.Fired r.2).
Proof.
  intros r. unfold World.add. fold r. simpl.
  rewrite deliver_all_quiet; [done|]. intros ev. apply add_root_quiet.
Qed.

Lemma has_add e w : World.has e (World.add e w).2 = true.
Proof.
  rewrite add_spec. unfold World.has, Bucket.has. simpl.
  apply bool_decide_eq_true. case_bool_decide; simpl; [done|].
  apply elem_of_app. right. by apply list_elem_of_singleton.
Qed.

Lemma remove_untracked e w : World.has e w = false → World.remove e w = w.
Proof.
  unfold World.has, Bucket.has, World.remove. simpl. intros ->. simpl.
  by destruct w.
Qed.

(** Removing a tracked entity: the World's own listener runs first, on the
    root's removal event; the events of the derived indexes are quiet. *)
Lemma remove_tracked e w :
  World.has e w = true →
  ∃ cs evs,
    World.remove e w =
    World.deliver_all evs
      (World.record (World.Fired (Bucket.EntityRemoved [] e (World.fields w e)))
        (World.forget e
          (World.with_root
             (Bucket.MkIndex Bucket.everything (Bucket.drop e (World.entities w)) cs) w)))
    ∧ ∀ ev, ev ∈ evs → quiet ev.
Proof.
  unfold World.has, Bucket.has, World.remove. simpl. intros ->. simpl.
  eexists _, _. split; [reflexivity|].
  intros ev Hin. apply each_events in Hin as (j & c & _ & Hev).
  apply remove_events in Hev. by apply (quiet_below [] j (World.fields w e) e).
Qed.

Lemma remove_ids e w :
  World.has e w = true → ids (World.remove e w) = ids (World.forget e w).
Proof.
  intros Hhas. destruct (remove_tracked e w Hhas) as (cs & evs & -> & Hq).
  rewrite deliver_all_quiet by done. unfold ids, World.forget. simpl.
  by destruct (World.entityToId w !! e).
Qed.

Lemma remove_entities e w :
  World.entities (World.remove e w) = Bucket.drop e (World.entities w).
Proof.
  unfold World.remove.
  destruct (deliver_all_frame
    (Bucket.remove [] (World.fields w e) e (World.root w)).2
    (World.with_root (Bucket.remove [] (World.fields w e) e (World.root w)).1 w))
    as (_ & -> & _).
  simpl. case_bool_decide; simpl; [done|]. by rewrite drop_absent.
Qed.

Lemma has_remove e w : World.has e (World.remove e w) = false.
Proof.
  unfold World.has, Bucket.has. simpl. rewrite remove_entities.
  apply bool_decide_eq_false. rewrite drop_elem. tauto.
Qed.

(** The derived indexes after a reindexing pass are the buckets below the
    root the pass returns. *)
Lemma derived_evaluate e future w x :
  x ∈ World.derived (World.evaluate e future w) →
  x ∈ Bucket.indexes
        (Bucket.evaluate [] (World.fields w e)
           (default (World.fields w e) future) e (World.root w)).1.
Proof.
  rewrite evaluate_spec. unfold World.derived. cbn [World.archetypes].
  destruct (Bucket.evaluate [] (World.fields w e)
              (default (World.fields w e) future) e (World.root w)).1
    as [q ms cs].
  cbn [Bucket.children]. intros Hx.
  apply list_elem_of_In, in_flat_map in Hx as (d & Hd & Hx).
  apply indexes_unfold. right. exists d. by split; apply list_elem_of_In.
Qed.

(** *** Mutating an entity in place *)

Lemma fields_write_eq e o w : World.fields (World.write e o w) e = o.
Proof. apply deref_insert_eq. Qed.

Lemma fields_write_ne e e' o w :
  e ≠ e' → World.fields (World.write e o w) e' = World.fields w e'.
Proof. apply deref_insert_ne. Qed.


Lemma fields_evaluate e future w e' :
  World.fields (World.evaluate e future w) e' = World.fields w e'.
Proof. by rewrite evaluate_spec. Qed.

(** *** The identity table under each operation *)

Lemma update_ids e u w : ids (World.update e u w).2 = ids w.
Proof.
  unfold World.update. simpl.
  destruct u as [|f|c v|p]; simpl;
    [| destruct (f (World.fields w e)).2 | |];
    match goal with |- context [World.has e ?x] => destruct (World.has e x) end;
    rewrite ?evaluate_spec; reflexivity.
Qed.

Lemma addComponent_ids e c v w : ids (World.addComponent e c v w) = ids w.
Proof.
  unfold World.addComponent.
  destruct (negb (is_undefined (get (World.fields w e) c))); [done|].
  match goal with |- context [World.has e ?x] => destruct (World.has e x) end;
    rewrite ?evaluate_spec; reflexivity.
Qed.

Lemma removeComponent_ids e c w : ids (World.removeComponent e c w) = ids w.
Proof.
  unfold World.removeComponent.
  destruct (is_undefined (get (World.fields w e) c)); [done|].
  destruct (World.has e w); rewrite ?evaluate_spec; reflexivity.
Qed.

Lemma add_ids e w : ids (World.add e w).2 = ids w.
Proof. by rewrite add_spec. Qed.

(** An operation leaves the identity table alone, or is the removal of a
    tracked entity and runs [forget], or is [id] issuing a fresh number. *)
Lemma step_ids op w :
  ids (World.step op w) = ids w
  ∨ (∃ e, op = World.ORemove e ∧ World.has e w = true ∧
          ids (World.step op w) = ids (World.forget e w))
  ∨ (∃ e, op = World.OId e ∧ World.has e w = true ∧
          World.entityToId w !! e = None ∧
          ids (World.step op w) =
            (<[e := World.nextId w]> (World.entityToId w),
             <[World.nextId w := e]> (World.idToEntity w),
             S (World.nextId w))).
Proof.
  destruct op as [e|e|e u|e c v|e c|e|n|p q|e o]; simpl.
  - left. apply add_ids.
  - destruct (World.has e w) eqn:Hhas.
    + right. left. exists e. auto using remove_ids.
    + left. by rewrite remove_untracked.
  - left. apply update_ids.
  - left. apply addComponent_ids.
  - left. apply removeComponent_ids.
  - unfold World.id. destruct (World.has e w) eqn:Hhas; simpl; [|by left].
    destruct (World.entityToId w !! e) as [n|] eqn:Hid.
    + left. rewrite bool_decide_eq_true_2 by eauto. done.
    + right. right. exists e. rewrite bool_decide_eq_false_2 by (by intros [? ?]).
      done.
  - by left.
  - by left.
  - by left.
Qed.

Lemma ids_entityToId w w' : ids w = ids w' → World.entityToId w = World.entityToId w'.
Proof. unfold ids. congruence. Qed.
Lemma ids_idToEntity w w' : ids w = ids w' → World.idToEntity w = World.idToEntity w'.
Proof. unfold ids. congruence. Qed.
Lemma ids_nextId w w' : ids w = ids w' → World.nextId w = World.nextId w'.
Proof. unfold ids. congruence. Qed.

Lemma Inverse_ids w w' : ids w = ids w' → Inverse w → Inverse w'.
Proof.
  intros H. unfold Inverse.
  by rewrite (ids_entityToId _ _ H), (ids_idToEntity _ _ H), (ids_nextId _ _ H).
Qed.

Lemma Inverse_new h es : Inverse (World.new h es).
Proof.
  split; simpl.
  - intros e n. by rewrite !lookup_empty.
  - intros e n. by rewrite lookup_empty.
Qed.

Lemma Inverse_forget e w : Inverse w → Inverse (World.forget e w).
Proof.
  intros [Hinv Hlt]. unfold World.forget.
  destruct (World.entityToId w !! e) as [n|] eqn:Hid; [|done].
  split; simpl.
  - intros e' n'. rewrite !lookup_delete_Some. split.
    + intros [Hne He']. split; [|by apply Hinv].
      intros <-. apply Hinv in He'. apply Hinv in Hid. congruence.
    + intros [Hne Hn']. split; [|by apply Hinv].
      intros <-. apply Hinv in Hn'. congruence.
  - intros e' n'. rewrite lookup_delete_Some. intros [_ He']. by eapply Hlt.
Qed.

Lemma Inverse_issue e w :
  Inverse w → World.entityToId w !! e = None →
  Inverse (World.Mk (World.store w) (World.entities w) (World.archetypes w)
             (<[e := World.nextId w]> (World.entityToId w))
             (<[World.nextId w := e]> (World.idToEntity w))
             (S (World.nextId w)) (World.history w)).
Proof.
  intros [Hinv Hlt] Hnone. split; simpl.
  - intros e' n'. rewrite !lookup_insert_Some. split.
    + intros [[<- <-] | [Hne He']]; [by left|]. right.
      split; [|by apply Hinv]. apply Hlt in He'. lia.
    + intros [[<- <-] | [Hne Hn']]; [by left|]. right.
      split; [|by apply Hinv]. intros <-. apply Hinv in Hn'. congruence.
  - intros e' n'. rewrite lookup_insert_Some.
    intros [[<- <-] | [_ He']]; [lia|]. apply Hlt in He'. lia.
Qed.

(** Every operation preserves the inverse relation. *)
Lemma Inverse_step op w : Inverse w → Inverse (World.step op w).
Proof.
  intros Hinv.
  destruct (step_ids op w) as [H | [(e & _ & _ & H) | (e & _ & _ & Hnone & H)]].
  - by apply (Inverse_ids w).
  - apply (Inverse_ids (World.forget e w)); [done | by apply Inverse_forget].
  - eapply Inverse_ids; [|by apply (Inverse_issue e w)]. by rewrite H.
Qed.

Lemma Inverse_reachable w : World.Reachable w → Inverse w.
Proof.
  induction 1 as [h es | op w _ IH]; [apply Inverse_new | by apply Inverse_step].
Qed.

(** *** What [id] returns *)

Lemma id_untracked e w : World.has e w = false → World.id e w = (None, w).
Proof. unfold World.id. by intros ->. Qed.

Lemma id_known e n w :
  World.has e w = true → World.entityToId w !! e = Some n →
  World.id e w = (Some n, w).
Proof.
  unfold World.id. intros -> Hid. simpl.
  rewrite bool_decide_eq_true_2 by eauto. simpl. by rewrite Hid.
Qed.

Lemma id_fresh e w :
  World.has e w = true → World.entityToId w !! e = None →
  World.id e w =
  (Some (World.nextId w),
   World.Mk (World.store w) (World.entities w) (World.archetypes w)
     (<[e := World.nextId w]> (World.entityToId w))
     (<[World.nextId w := e]> (World.idToEntity w))
     (S (World.nextId w)) (World.history w)).
Proof.
  unfold World.id. intros -> Hid. simpl.
  rewrite bool_decide_eq_false_2 by (rewrite Hid; by intros [? ?]).
  simpl. by rewrite lookup_insert_eq.
Qed.

Lemma id_has e w : World.has e (World.id e w).2 = World.has e w.
Proof.
  unfold World.id. destruct (World.has e w) eqn:Hhas; simpl; [|done].
  by destruct (negb _).
Qed.

(** The number [id] returns is the one the table holds afterwards. *)
Lemma id_returns e n w :
  (World.id e w).1 = Some n →
  World.has e w = true ∧ World.entityToId (World.id e w).2 !! e = Some n.
Proof.
  destruct (World.has e w) eqn:Hhas; [|by rewrite id_untracked].
  destruct (World.entityToId w !! e) as [m|] eqn:Hid.
  - rewrite (id_known e m) by done. simpl. by intros [= ->].
  - rewrite id_fresh by done. simpl. intros [= <-]. by rewrite lookup_insert_eq.
Qed.

(** An entity keeps its number for as long as it stays tracked. *)
Lemma id_stable_step e n op w :
  World.entityToId w !! e = Some n → World.has e (World.step op w) = true →
  World.entityToId (World.step op w) !! e = Some n.
Proof.
  intros Hid Hhas.
  destruct (step_ids op w) as [H | [(e' & -> & _ & H) | (e' & _ & _ & Hnone & H)]].
  - by rewrite (ids_entityToId _ _ H).
  - rewrite (ids_entityToId _ _ H). destruct (decide (e' = e)) as [-> | Hne].
    + simpl in Hhas. by rewrite has_remove in Hhas.
    + unfold World.forget. destruct (World.entityToId w !! e'); [|done].
      simpl. by rewrite lookup_delete_ne.
  - apply (f_equal (λ x, x.1.1)) in H. simpl in H. rewrite H.
    rewrite lookup_insert_ne; [done|]. intros ->. congruence.
Qed.

Lemma stays_now e ops w : World.stays e ops w = true → World.has e w = true.
Proof. destruct ops; simpl; [done|]. by intros [? _]%andb_true_iff. Qed.

Lemma id_stable_run e n ops : ∀ w,
  World.entityToId w !! e = Some n → World.stays e ops w = true →
  World.entityToId (World.run ops w) !! e = Some n
  ∧ World.has e (World.run ops w) = true.
Proof.
  induction ops as [|op ops IH]; intros w Hid Hst; simpl in *; [done|].
  apply andb_true_iff in Hst as [_ Hst].
  apply IH; [|done]. apply id_stable_step; [done|]. by eapply stays_now.
Qed.

(** A number the counter has passed and the entity does not hold is never
    the entity's again. *)
Lemma retired_step e n op w :
  n < World.nextId w → World.entityToId w !! e ≠ Some n →
  n < World.nextId (World.step op w)
  ∧ World.entityToId (World.step op w) !! e ≠ Some n.
Proof.
  intros Hlt Hne.
  destruct (step_ids op w) as [H | [(e' & _ & _ & H) | (e' & _ & _ & Hnone & H)]].
  - by rewrite (ids_entityToId _ _ H), (ids_nextId _ _ H).
  - rewrite (ids_entityToId _ _ H), (ids_nextId _ _ H).
    unfold World.forget. destruct (World.entityToId w !! e'); [|done].
    simpl. split; [done|]. rewrite lookup_delete_Some. tauto.
  - pose proof (f_equal (λ x, x.1.1) H) as H1. pose proof (f_equal snd H) as H2.
    simpl in H1, H2. rewrite H1, H2. split; [lia|].
    rewrite lookup_insert_Some. intros [[_ ?] | [_ ?]]; [lia | done].
Qed.

Lemma retired_run e n ops : ∀ w,
  n < World.nextId w → World.entityToId w !! e ≠ Some n →
  n < World.nextId (World.run ops w)
  ∧ World.entityToId (World.run ops w) !! e ≠ Some n.
Proof.
  induction ops as [|op ops IH]; intros w Hlt Hne; simpl; [done|].
  destruct (retired_step e n op w Hlt Hne). by apply IH.
Qed.

Lemma retired_id e n w :
  n < World.nextId w → World.entityToId w !! e ≠ Some n →
  (World.id e w).1 ≠ Some n.
Proof.
  intros Hlt Hne Hret. apply id_returns in Hret as [_ Hret].
  destruct (retired_step e n (World.OId e) w Hlt Hne) as [_ H]. by apply H.
Qed.

(** *** The subset relation under each operation *)

Lemma root_placed b evs w :
  Bucket.query b = Bucket.everything →
  World.root (World.deliver_all evs (World.with_root b w)) = b.
Proof.
  intros Hq. unfold World.root.
  destruct (deliver_all_frame evs (World.with_root b w)) as (_ & -> & -> & _).
  destruct b. simpl in *. by subst.
Qed.

Lemma Nested_write e o w : Nested w → Nested (World.write e o w).
Proof. done. Qed.

Lemma Nested_evaluate e future w : Nested w → Nested (World.evaluate e future w).
Proof.
  intros Hn. unfold Nested, World.evaluate.
  rewrite (root_placed _ _ (World.record _ w)) by apply evaluate_query.
  by apply evaluate_nested.
Qed.

Lemma Nested_step op w : Nested w → Nested (World.step op w).
Proof.
  intros Hn. destruct op as [e|e|e u|e c v|e c|e|n|p q|e o]; unfold World.step.
  - unfold Nested, World.add. cbn [snd]. rewrite root_placed by apply add_query.
    by apply add_nested.
  - unfold Nested, World.remove. rewrite root_placed by apply remove_query.
    by apply remove_nested.
  - unfold World.update. cbn [snd].
    destruct u as [|f|c v|p];
      [| destruct (f (World.fields w e)).2 | |];
      match goal with |- context [World.has e ?x] => destruct (World.has e x) end;
      try apply Nested_evaluate; done.
  - unfold World.addComponent.
    destruct (negb (is_undefined (get (World.fields w e) c))); [done|].
    match goal with |- context [World.has e ?x] => destruct (World.has e x) end;
      try apply Nested_evaluate; done.
  - unfold World.removeComponent.
    destruct (is_undefined (get (World.fields w e) c)); [done|].
    apply Nested_write. destruct (World.has e w); [by apply Nested_evaluate | done].
  - unfold World.id. destruct (World.has e w); cbn [negb snd]; [|done].
    by destruct (negb _).
  - done.
  - unfold Nested, World.archetype.
    change (World.with_root ?b w) with (World.deliver_all [] (World.with_root b w)).
    rewrite root_placed by (by destruct p).
    by apply derive_at_nested.
  - done.
Qed.

Lemma Nested_reachable w : World.Reachable w → Nested w.
Proof.
  induction 1 as [h es | op w _ IH]; [done | by apply Nested_step].
Qed.

End WorldFacts.

Lemma Reachable_run ops : ∀ w, World.Reachable w → World.Reachable (World.run ops w).
Proof.
  induction ops as [|op ops IH]; intros w Hw; simpl; [done|].
  apply IH. by constructor.
Qed.

Lemma Demo_reachable : World.Reachable Demo.world.
Proof. apply Reachable_run. constructor. Qed.

(** The end-to-end scenario of the specification, section 8. *)
Example demo_members :
  World.entities Demo.world = [1; 2; 3]%positive
  ∧ map Bucket.members (World.derived Demo.world)
    = [[1; 2]; [1; 2]; [3]]%positive.
Proof. split; reflexivity. Qed.

Example demo_remove_then_add_age :
  let w1 := World.removeComponent 1 "age" Demo.world in
  let w2 := World.addComponent 1 "age" (VNum 1) w1 in
  map Bucket.members (World.derived w1) = [[2]; [2]; [3; 1]]%positive
  ∧ map Bucket.members (World.derived w2) = [[2; 1]; [2; 1]; [3]]%positive.
Proof. split; vm_compute; reflexivity. Qed.

(** * The claims *)

Import BucketFacts WorldFacts.




(** C2.  In every state a World can reach, and after any further
    operation, each derived index holds only entities its parent holds. *)
Theorem subset_invariant w :
  World.Reachable w →
  Bucket.Subset (World.root w) ∧ ∀ op, Bucket.Subset (World.root (World.step op w)).
Proof.
  intros Hw. split; [|intros op]; apply nested_Subset, Nested_reachable;
    [done | by constructor].
Qed.

Lemma subset_invariant_witness :
  Bucket.Subset (World.root Demo.world)
  ∧ ∀ op, Bucket.Subset (World.root (World.step op Demo.world)).
Proof. apply (subset_invariant Demo.world), Demo_reachable. Defined.






(** C5.  [addComponent] of a component already present returns the World
    it was given, and so does [removeComponent] of a component that is
    absent: the entity, the buckets, the identity table and the history are
    all as before. *)
Theorem component_noop e c v w :
  (present (World.fields w e) c = true → World.addComponent e c v w = w)
  ∧ (present (World.fields w e) c = false → World.removeComponent e c w = w).
Proof.
  unfold present, World.addComponent, World.removeComponent. split.
  - by intros ->.
  - intros H. apply negb_false_iff in H. by rewrite H.
Qed.

Lemma component_noop_witness :
  present (World.fields Demo.world 1) "age" = true
  ∧ World.addComponent 1 "age" (VNum 99) Demo.world = Demo.world
  ∧ present (World.fields Demo.world 1) "height" = false
  ∧ World.removeComponent 1 "height" Demo.world = Demo.world.
Proof.
  split; [reflexivity|]. split.
  { apply (proj1 (component_noop 1 "age" (VNum 99) Demo.world)). reflexivity. }
  split; [reflexivity|].
  apply (proj2 (component_noop 1 "height" VUndefined Demo.world)). reflexivity.
Defined.

(** C8.  Adding an entity that is already a member returns the entity and
    the World unchanged: same sequence, same length, no new event. *)
Theorem add_idempotent e w :
  World.has e w = true →
  World.add e w = (e, w)
  ∧ length (World.entities (World.add e w).2) = length (World.entities w)
  ∧ World.history (World.add e w).2 = World.history w.
Proof.
  intros Hhas.
  assert (World.add e w = (e, w)) as Heq.
  { unfold World.has, Bucket.has in Hhas. unfold World.add. simpl in *.
    rewrite Hhas. simpl. by destruct w. }
  by rewrite Heq.
Qed.

(** [world.add(e); world.add(e)] on a new World. *)
Lemma add_idempotent_witness :
  World.has 1 (World.add 1 (World.new Demo.heap [])).2 = true
  ∧ World.add 1 (World.add 1 (World.new Demo.heap [])).2
    = (1%positive, (World.add 1 (World.new Demo.heap [])).2).
Proof.
  split; [reflexivity|].
  apply (add_idempotent 1 (World.add 1 (World.new Demo.heap [])).2). reflexivity.
Defined.

(** C6.  [id] returns nothing for an entity that is not tracked; for a
    tracked entity without a number it returns the counter's value and
    increments the counter; whatever happens next, as long as the entity
    stays tracked a further call returns the same number; and in a World
    that can be reached, a number issued to another entity meanwhile is a
    different one. *)
Theorem id_lazy_stable_distinct e w :
  (World.has e w = false → World.id e w = (None, w))
  ∧ (World.has e w = true → World.entityToId w !! e = None →
     (World.id e w).1 = Some (World.nextId w)
     ∧ World.nextId (World.id e w).2 = S (World.nextId w))
  ∧ (∀ n ops, (World.id e w).1 = Some n →
       World.stays e ops (World.id e w).2 = true →
       (World.id e (World.run ops (World.id e w).2)).1 = Some n)
  ∧ (World.Reachable w →
     ∀ n ops e' n', (World.id e w).1 = Some n →
       World.stays e ops (World.id e w).2 = true →
       e' ≠ e →
       (World.id e' (World.run ops (World.id e w).2)).1 = Some n' →
       n' ≠ n).
Proof.
  split; [apply id_untracked|]. split.
  { intros Hhas Hnone. by rewrite id_fresh. }
  split.
  { intros n ops Hret Hst. apply id_returns in Hret as [_ Hid].
    destruct (id_stable_run e n ops _ Hid Hst) as [Hid' Hhas'].
    by rewrite (id_known e n). }
  intros Hw n ops e' n' Hret Hst Hne Hret' <-.
  apply id_returns in Hret as [_ Hid].
  destruct (id_stable_run e n' ops _ Hid Hst) as [Hid' Hhas'].
  set (w' := World.run ops (World.id e w).2) in *.
  assert (World.Reachable w') as Hw'.
  { apply Reachable_run. by apply (World.reachable_step (World.OId e)). }
  apply id_returns in Hret' as [_ Hid2].
  assert (World.entityToId (World.id e' w').2 !! e = Some n') as Hid1.
  { apply (id_stable_step e n' (World.OId e') w'); [done|].
    simpl. unfold World.id. destruct (World.has e' w'); simpl; [|done].
    by destruct (negb _). }
  assert (Inverse (World.id e' w').2) as [Hinv _].
  { apply Inverse_reachable. by apply (World.reachable_step (World.OId e')). }
  apply Hinv in Hid1. apply Hinv in Hid2. congruence.
Qed.

(** John and Jane get the numbers 0 and 1, and John keeps his while
    components come and go. *)
Lemma id_lazy_stable_distinct_witness :
  (World.id 4 Demo.world).1 = None
  ∧ (World.id 1 Demo.world).1 = Some 0
  ∧ (World.id 1 (World.run [World.ORemoveComponent 1 "age"; World.ORemove 2]
                   (World.id 1 Demo.world).2)).1 = Some 0
  ∧ (World.id 2 (World.run [] (World.id 1 Demo.world).2)).1 = Some 1.
Proof.
  destruct (id_lazy_stable_distinct 4 Demo.world) as (Hun & _).
  destruct (id_lazy_stable_distinct 1 Demo.world) as (_ & Hfresh & Hstable & _).
  split; [rewrite Hun; reflexivity|].
  split; [apply Hfresh; reflexivity|].
  split; [apply Hstable; reflexivity|]. reflexivity.
Defined.

(** C7.  If [id(e)] returned [n] and [e] stayed tracked until
    [remove(e)], then after the removal [entity(n)] and [id(e)] are both
    undefined; [add(e)] followed by [id(e)] yields a number other than [n];
    and in fact no later call of [id(e)], whatever happens in between,
    returns [n] again. *)
Theorem id_not_recycled e n w ops :
  World.Reachable w →
  (World.id e w).1 = Some n →
  World.stays e ops (World.id e w).2 = true →
  let gone := World.remove e (World.run ops (World.id e w).2) in
  World.entity n gone = None
  ∧ World.entityToId gone !! e = None
  ∧ World.id e gone = (None, gone)
  ∧ (∃ n', (World.id e (World.add e gone).2).1 = Some n' ∧ n' ≠ n)
  ∧ (∀ ops', (World.id e (World.run ops' gone)).1 ≠ Some n).
Proof.
  intros Hw Hret Hst gone.
  apply id_returns in Hret as [_ Hid].
  destruct (id_stable_run e n ops _ Hid Hst) as [Hid' Hhas'].
  set (w' := World.run ops (World.id e w).2) in *.
  assert (Inverse w') as [_ Hlt].
  { apply Inverse_reachable, Reachable_run.
    by apply (World.reachable_step (World.OId e)). }
  pose proof (remove_ids e w' Hhas') as Hids. fold gone in Hids.
  unfold World.forget in Hids. rewrite Hid' in Hids.
  pose proof (ids_entityToId _ _ Hids) as H1.
  pose proof (ids_idToEntity _ _ Hids) as H2.
  pose proof (ids_nextId _ _ Hids) as H3. simpl in H1, H2, H3.
  assert (World.entityToId gone !! e = None) as Hnone.
  { rewrite H1. apply lookup_delete_eq. }
  assert (n < World.nextId gone) as Hpast.
  { rewrite H3. by apply (Hlt e). }
  split; [unfold World.entity; rewrite H2; apply lookup_delete_eq|].
  split; [done|].
  split; [apply id_untracked, has_remove|].
  split.
  - pose proof (add_ids e gone) as Ha.
    assert (World.entityToId (World.add e gone).2 !! e = None) as Hnone2.
    { by rewrite (ids_entityToId _ _ Ha). }
    exists (World.nextId (World.add e gone).2).
    rewrite (id_fresh _ _ (has_add e gone) Hnone2). cbn [fst].
    split; [done|]. rewrite (ids_nextId _ _ Ha). lia.
  - intros ops'.
    destruct (retired_run e n ops' gone) as [Hlt' Hne']; [done | by rewrite Hnone |].
    by apply retired_id.
Qed.

Lemma id_not_recycled_witness :
  (World.id 1 Demo.world).1 = Some 0
  ∧ World.entity 0 (World.remove 1 (World.run [World.OId 2] (World.id 1 Demo.world).2)) = None
  ∧ (World.id 1 (World.add 1
       (World.remove 1 (World.run [World.OId 2] (World.id 1 Demo.world).2))).2).1 = Some 2.
Proof.
  split; [reflexivity|].
  split; [|reflexivity].
  apply (id_not_recycled 1 0 Demo.world [World.OId 2] Demo_reachable); reflexivity.
Defined.

(** C9.  In every state a World can reach, [entityToId] and [idToEntity]
    are inverse to each other and every number they hold is below
    [nextId]; and so it is after any further operation. *)
Theorem identity_table_inverse w :
  World.Reachable w →
  ((∀ e n, World.entityToId w !! e = Some n ↔ World.idToEntity w !! n = Some e)
   ∧ (∀ e n, World.entityToId w !! e = Some n → n < World.nextId w)
   ∧ (∀ e n, World.idToEntity w !! n = Some e → n < World.nextId w))
  ∧ ∀ op, Inverse (World.step op w).
Proof.
  intros Hw. pose proof (Inverse_reachable w Hw) as Hinv. split.
  - destruct Hinv as [Hinv Hlt]. repeat split; try apply Hinv; try apply Hlt.
    intros e n Hn. apply Hinv in Hn. by eapply Hlt.
  - intros op. by apply Inverse_step.
Qed.

Lemma identity_table_inverse_witness :
  Inverse (World.step (World.OId 2) (World.step (World.OId 1) Demo.world)).
Proof.
  apply (identity_table_inverse (World.step (World.OId 1) Demo.world)).
  constructor. apply Demo_reachable.
Defined.

(** C10.  On a tracked entity lacking [c], [addComponent(e, c, undefined)]
    passes the guard: it writes [undefined] into the field [c], which
    leaves the component absent, and runs the reindexing pass on the
    entity; afterwards no derived index whose specification requires [c]
    holds [e]. *)
Theorem addComponent_undefined_value e c w :
  World.Reachable w →
  World.has e w = true →
  present (World.fields w e) c = false →
  let assigned := <[c := VUndefined]> (World.fields w e) in
  let after := World.addComponent e c VUndefined w in
  after = World.evaluate e None (World.write e assigned w)
  ∧ World.fields after e !! c = Some VUndefined
  ∧ present (World.fields after e) c = false
  ∧ (∃ evs, World.history after
            = World.history w ++ World.Evaluated e assigned :: map World.Fired evs)
  ∧ ∀ x, x ∈ World.derived after → c ∈ Bucket.q_with (Bucket.query x) →
         e ∉ Bucket.members x.
Proof.
  intros Hw Hhas Habs assigned after.
  assert (after = World.evaluate e None (World.write e assigned w)) as Heq.
  { unfold after, World.addComponent. unfold present in Habs. rewrite Habs.
    change (World.has e (World.write e ?o w)) with (World.has e w).
    by rewrite Hhas. }
  assert (World.fields after e = assigned) as Hf.
  { by rewrite Heq, fields_evaluate, fields_write_eq. }
  assert (present assigned c = false) as Hp.
  { unfold present, assigned. by rewrite get_insert_eq. }
  split; [done|].
  split; [rewrite Hf; apply lookup_insert_eq|].
  split; [by rewrite Hf|].
  split.
  { rewrite Heq, evaluate_spec. simpl. rewrite fields_write_eq. eauto. }
  intros x Hx Hreq. rewrite Heq in Hx. apply derived_evaluate in Hx.
  rewrite fields_write_eq in Hx. cbn [default] in Hx.
  change (World.root (World.write e assigned w)) with (World.root w) in Hx.
  by eapply (evaluate_requiring assigned assigned e c (World.root w) Hp);
    [apply Nested_reachable | |].
Qed.

Lemma addComponent_undefined_value_witness :
  World.has 1 Demo.world = true
  ∧ present (World.fields Demo.world 1) "height" = false
  ∧ present (World.fields (World.addComponent 1 "height" VUndefined Demo.world) 1) "height" = false
  ∧ World.fields (World.addComponent 1 "height" VUndefined Demo.world) 1 !! "height"
    = Some VUndefined.
Proof.
  split; [reflexivity|]. split; [reflexivity|].
  destruct (addComponent_undefined_value 1 "height" Demo.world Demo_reachable)
    as (_ & Hset & Habs & _); [reflexivity.. | by split].
Defined.

(** * Further properties of World.ts *)

(** ** Which entities are tracked *)

Lemma update_entities e u w :
  World.entities (World.update e u w).2 = World.entities w.
Proof.
  unfold World.update. cbn [snd].
  destruct u as [|f|c v|p];
    [| destruct (f (World.fields w e)).2 | |];
    match goal with
    | |- context [World.has e ?x] =>
        destruct (World.has e x) eqn:Hhas;
        [rewrite (evaluate_entities _ _ _ Hhas)|]
    end; reflexivity.
Qed.

Lemma addComponent_entities e c v w :
  World.entities (World.addComponent e c v w) = World.entities w.
Proof.
  unfold World.addComponent.
  destruct (negb (is_undefined (get (World.fields w e) c))); [done|].
  match goal with
  | |- context [World.has e ?x] =>
      destruct (World.has e x) eqn:Hhas;
      [rewrite (evaluate_entities _ _ _ Hhas)|]
  end; reflexivity.
Qed.

Lemma removeComponent_entities e c w :
  World.entities (World.removeComponent e c w) = World.entities w.
Proof.
  unfold World.removeComponent.
  destruct (is_undefined (get (World.fields w e) c)); [done|].
  destruct (World.has e w) eqn:Hhas; [|done].
  change (World.entities (World.write e ?o ?x)) with (World.entities x).
  by apply evaluate_entities.
Qed.

Lemma id_entities e w : World.entities (World.id e w).2 = World.entities w.
Proof.
  unfold World.id. destruct (World.has e w); cbn [negb snd]; [|done].
  by destruct (negb _).
Qed.

Lemma add_entities e w :
  World.entities (World.add e w).2
  = if World.has e w then World.entities w else World.entities w ++ [e].
Proof.
  rewrite add_spec. unfold World.has, Bucket.has. simpl.
  by case_bool_decide.
Qed.

Lemma archetype_entities p q w :
  World.entities (World.archetype p q w) = World.entities w.
Proof. unfold World.archetype. simpl. by destruct p. Qed.

(** X1.  The sequence of tracked entities changes only under [add] and
    [remove]: [add] appends an entity that is not yet tracked, [remove]
    takes the entity out, and [update], [addComponent], [removeComponent],
    [id] and [entity] leave the sequence exactly as it was. *)
Theorem tracked_only_by_add_remove op w :
  World.entities (World.step op w)
  = match op with
    | World.OAdd e =>
        if World.has e w then World.entities w else World.entities w ++ [e]
    | World.ORemove e => Bucket.drop e (World.entities w)
    | _ => World.entities w
    end.
Proof.
  destruct op as [e|e|e u|e c v|e c|e|n|p q|e o]; unfold World.step.
  - apply add_entities.
  - apply remove_entities.
  - apply update_entities.
  - apply addComponent_entities.
  - apply removeComponent_entities.
  - apply id_entities.
  - done.
  - apply archetype_entities.
  - done.
Qed.

(** ** The identity table *)

Lemma ids_split w a b c :
  ids w = (a, b, c) →
  World.entityToId w = a ∧ World.idToEntity w = b ∧ World.nextId w = c.
Proof. unfold ids. by intros [= -> -> ->]. Qed.

Lemma ids_tracked_step op w :
  (∀ e n, World.entityToId w !! e = Some n → e ∈ World.entities w) →
  ∀ e n, World.entityToId (World.step op w) !! e = Some n →
         e ∈ World.entities (World.step op w).
Proof.
  intros Hinv e n. rewrite tracked_only_by_add_remove.
  destruct (step_ids op w) as [H | [(e' & -> & Hhas & H) | (e' & -> & Hhas & Hnone & H)]].
  - rewrite (ids_entityToId _ _ H). intros Hid. pose proof (Hinv _ _ Hid) as Hin.
    destruct op as [e'|e'| | | | | | |]; try done.
    + destruct (World.has e' w); [done|]. apply elem_of_app. by left.
    + destruct (World.has e' w) eqn:Hhas.
      * apply drop_elem. split; [done|]. intros ->.
        pose proof (remove_ids e' w Hhas) as Hr. simpl in H. rewrite Hr in H.
        apply ids_entityToId in H. unfold World.forget in H.
        rewrite Hid in H. simpl in H.
        apply (f_equal (λ m, m !! e')) in H.
        rewrite lookup_delete_eq in H. congruence.
      * unfold World.has, Bucket.has in Hhas. simpl in Hhas.
        apply bool_decide_eq_false in Hhas. by rewrite drop_absent.
  - rewrite (ids_entityToId _ _ H). unfold World.forget.
    destruct (World.entityToId w !! e') as [m|] eqn:Hm; simpl.
    + rewrite lookup_delete_Some. intros [Hne Hid].
      apply drop_elem. split; [by eapply Hinv | done].
    + intros Hid. apply drop_elem. split; [by eapply Hinv|]. intros ->. congruence.
  - apply ids_split in H as (-> & _ & _).
    rewrite lookup_insert_Some. intros [[<- _] | [_ Hid]]; [|by eapply Hinv].
    unfold World.has, Bucket.has in Hhas. simpl in Hhas.
    by apply bool_decide_eq_true in Hhas.
Qed.

Lemma ids_tracked w :
  World.Reachable w →
  ∀ e n, World.entityToId w !! e = Some n → e ∈ World.entities w.
Proof.
  induction 1 as [h es | op w _ IH]; [|by apply ids_tracked_step].
  intros e n. simpl. by rewrite lookup_empty.
Qed.

Lemma has_elem e w : World.has e w = true ↔ e ∈ World.entities w.
Proof. unfold World.has, Bucket.has. simpl. apply bool_decide_eq_true. Qed.

(** X2.  [entity] undoes [id]: the number [id(e)] returns looks up [e]. *)
Theorem entity_of_id e n w :
  World.Reachable w →
  (World.id e w).1 = Some n →
  World.entity n (World.id e w).2 = Some e.
Proof.
  intros Hw Hret. apply id_returns in Hret as [_ Hid].
  assert (Inverse (World.id e w).2) as [Hinv _].
  { apply Inverse_reachable. by apply (World.reachable_step (World.OId e)). }
  by apply Hinv.
Qed.

Lemma entity_of_id_witness :
  (World.id 2 Demo.world).1 = Some 0
  ∧ World.entity 0 (World.id 2 Demo.world).2 = Some 2%positive.
Proof.
  assert ((World.id 2 Demo.world).1 = Some 0) as Hret by (vm_compute; reflexivity).
  split; [exact Hret | exact (entity_of_id 2 0 Demo.world Demo_reachable Hret)].
Defined.

(** X3.  [id] undoes [entity]: an entity that [entity(n)] returns is
    tracked by the World, and [id] of it returns [n] and changes nothing.
    The table never holds an entity that was removed. *)
Theorem id_of_entity n e w :
  World.Reachable w →
  World.entity n w = Some e →
  World.has e w = true ∧ World.id e w = (Some n, w).
Proof.
  intros Hw Hent. unfold World.entity in Hent.
  destruct (Inverse_reachable w Hw) as [Hinv _]. apply Hinv in Hent.
  assert (World.has e w = true) as Hhas.
  { apply has_elem. by eapply ids_tracked. }
  split; [done | by apply id_known].
Qed.

Lemma id_of_entity_witness :
  World.entity 0 (World.step (World.OId 2) Demo.world) = Some 2%positive
  ∧ World.has 2 (World.step (World.OId 2) Demo.world) = true
  ∧ World.id 2 (World.step (World.OId 2) Demo.world)
    = (Some 0, World.step (World.OId 2) Demo.world).
Proof.
  assert (World.Reachable (World.step (World.OId 2) Demo.world)) as Hw.
  { constructor. apply Demo_reachable. }
  assert (World.entity 0 (World.step (World.OId 2) Demo.world) = Some 2%positive)
    as Hent by (vm_compute; reflexivity).
  split; [exact Hent | exact (id_of_entity 0 2 _ Hw Hent)].
Defined.

(** X4.  A second [id(e)] right after the first is a pure read: it returns
    the same result and leaves the World as the first call left it; and
    [id] never touches the store, the buckets or the history. *)
Theorem id_twice e w :
  World.id e (World.id e w).2 = World.id e w
  ∧ World.store (World.id e w).2 = World.store w
  ∧ World.entities (World.id e w).2 = World.entities w
  ∧ World.archetypes (World.id e w).2 = World.archetypes w
  ∧ World.history (World.id e w).2 = World.history w.
Proof.
  split.
  - destruct (World.has e w) eqn:Hhas.
    + destruct (World.id e w).1 as [n|] eqn:Hret.
      * pose proof Hret as Hret'. apply id_returns in Hret' as [_ Hid].
        rewrite (id_known e n (World.id e w).2); [| by rewrite id_has | done].
        rewrite <- Hret. by destruct (World.id e w).
      * exfalso. destruct (World.entityToId w !! e) as [m|] eqn:Hm.
        -- by rewrite (id_known e m) in Hret.
        -- by rewrite id_fresh in Hret.
    + rewrite (id_untracked e w Hhas). cbn [snd]. by rewrite (id_untracked e w Hhas).
  - unfold World.id. destruct (World.has e w); cbn [negb snd]; [|done].
    by destruct (negb _).
Qed.

(** ** The entities' fields *)

Lemma add_store e w : World.store (World.add e w).2 = World.store w.
Proof. by rewrite add_spec. Qed.

Lemma remove_store e w : World.store (World.remove e w) = World.store w.
Proof.
  unfold World.remove.
  by destruct (deliver_all_frame
    (Bucket.remove [] (World.fields w e) e (World.root w)).2
    (World.with_root (Bucket.remove [] (World.fields w e) e (World.root w)).1 w))
    as (-> & _).
Qed.


Lemma addComponent_fields e c v w :
  World.fields (World.addComponent e c v w) e
  = if present (World.fields w e) c then World.fields w e
    else <[c := v]> (World.fields w e).
Proof.
  unfold World.addComponent, present.
  destruct (negb (is_undefined (get (World.fields w e) c))); [done|].
  match goal with |- context [World.has e ?x] => destruct (World.has e x) end;
    rewrite ?fields_evaluate, ?fields_write_eq; reflexivity.
Qed.

Lemma removeComponent_fields e c w :
  World.fields (World.removeComponent e c w) e
  = if present (World.fields w e) c then delete c (World.fields w e)
    else World.fields w e.
Proof.
  unfold World.removeComponent, present.
  destruct (is_undefined (get (World.fields w e) c)); [done|]. cbn [negb].
  rewrite fields_write_eq.
  destruct (World.has e w); rewrite ?fields_evaluate; reflexivity.
Qed.

(** X5.  No operation changes an entity other than the one it is given:
    [update], [addComponent] and [removeComponent] leave the fields of every
    other entity as they were, and [add], [remove], [id], [entity] and the
    derivation of an index change no entity at all. *)
Theorem other_entities_untouched op w e' :
  match op with
  | World.OUpdate e _ | World.OAddComponent e _ _
  | World.ORemoveComponent e _ | World.OMutate e _ => e' ≠ e
  | _ => True
  end →
  World.fields (World.step op w) e' = World.fields w e'.
Proof.
  destruct op as [e|e|e u|e c v|e c|e|n|p q|e o]; unfold World.step; intros Hne.
  - unfold World.fields. by rewrite add_store.
  - unfold World.fields. by rewrite remove_store.
  - unfold World.update. cbn [snd].
    destruct u as [|f|c v|p];
      [| destruct (f (World.fields w e)).2 | |];
      match goal with |- context [World.has e ?x] => destruct (World.has e x) end;
      rewrite ?fields_evaluate, ?fields_write_ne by done; reflexivity.
  - unfold World.addComponent.
    destruct (negb (is_undefined (get (World.fields w e) c))); [done|].
    match goal with |- context [World.has e ?x] => destruct (World.has e x) end;
      rewrite ?fields_evaluate, ?fields_write_ne by done; reflexivity.
  - unfold World.removeComponent.
    destruct (is_undefined (get (World.fields w e) c)); [done|].
    rewrite fields_write_ne by done.
    destruct (World.has e w); rewrite ?fields_evaluate; reflexivity.
  - unfold World.fields. by destruct (id_twice e w) as (_ & -> & _).
  - done.
  - done.
  - by apply fields_write_ne.
Qed.

Lemma other_entities_untouched_witness :
  World.fields (World.step (World.ORemoveComponent 1 "age") Demo.world) 2
  = World.fields Demo.world 2.
Proof.
  apply (other_entities_untouched (World.ORemoveComponent 1 "age") Demo.world 2).
  discriminate.
Defined.

(** X6.  Adding a component that is absent and then removing it deletes
    the field: the entity is left with the fields it had, less the one named
    [c]; so an entity that never had the field is exactly as before, and one
    on which the field was set to [undefined] by hand loses it. *)
Theorem add_then_remove_component e c v w :
  present (World.fields w e) c = false →
  is_undefined v = false →
  World.fields (World.removeComponent e c (World.addComponent e c v w)) e
  = delete c (World.fields w e)
  ∧ (World.fields w e !! c = None →
     World.fields (World.removeComponent e c (World.addComponent e c v w)) e
     = World.fields w e).
Proof.
  intros Habs Hv.
  assert (World.fields (World.removeComponent e c (World.addComponent e c v w)) e
          = delete c (World.fields w e)) as Heq.
  { rewrite removeComponent_fields, addComponent_fields, Habs.
    unfold present. rewrite get_insert_eq, Hv. cbn [negb].
    apply delete_insert_eq. }
  split; [done|]. intros Hnone. rewrite Heq. by apply delete_id.
Qed.

Lemma add_then_remove_component_witness :
  World.fields (World.removeComponent 1 "height"
                  (World.addComponent 1 "height" (VNum 180) Demo.world)) 1
  = Demo.john
  ∧ World.fields (World.removeComponent 3 "age"
                    (World.addComponent 3 "age" (VNum 7) Demo.world)) 3
    = delete "age" Demo.ghost.
Proof.
  assert (present (World.fields Demo.world 1) "height" = false) as H1
    by (vm_compute; reflexivity).
  assert (present (World.fields Demo.world 3) "age" = false) as H3
    by (vm_compute; reflexivity).
  destruct (add_then_remove_component 1 "height" (VNum 180) Demo.world H1 eq_refl)
    as [_ Hsame].
  destruct (add_then_remove_component 3 "age" (VNum 7) Demo.world H3 eq_refl)
    as [Hdel _].
  split; [|exact Hdel].
  rewrite Hsame; vm_compute; reflexivity.
Defined.





(** ** Reindexing *)

Lemma add_sound seen subject e b :
  Bucket.nested b = true → e ∉ Bucket.members b →
  ∀ p x, x ∈ Bucket.indexes (Bucket.add p seen subject e b).1 →
    e ∈ Bucket.members x → Bucket.matches (Bucket.query x) subject = true.
Proof.
  induction b as [q ms cs IH] using Index_tree_ind.
  intros Hn He p x. simpl.
  destruct (Bucket.matches q subject) eqn:Hm; case_bool_decide as Hin; simpl;
    try (intros Hx Hex; exfalso; by eapply (nested_absent e _ Hn He x)).
  rewrite nested_unfold in Hn. simpl in He.
  intros Hx Hex. apply indexes_unfold in Hx as [-> | (c' & Hc' & Hx)]; [done|].
  apply each_children in Hc' as (j & d & Hd & ->).
  destruct (Hn d Hd) as [Hs Hnd].
  eapply (IH d Hd); [done | | done..]. intros Hed. by apply He, Hs.
Qed.

Lemma evaluate_sound seen subject e b :
  Bucket.nested b = true →
  ∀ p x, x ∈ Bucket.indexes (Bucket.evaluate p seen subject e b).1 →
    e ∈ Bucket.members x → Bucket.matches (Bucket.query x) subject = true.
Proof.
  induction b as [q ms cs IH] using Index_tree_ind.
  intros Hn p x. simpl.
  pose proof Hn as Hn'. rewrite nested_unfold in Hn'.
  case_bool_decide as He; destruct (Bucket.matches q subject) eqn:Hm; simpl;
    intros Hx Hex.
  - apply indexes_unfold in Hx as [-> | (c' & Hc' & Hx)]; [done|].
    apply each_children in Hc' as (j & d & Hd & ->).
    destruct (Hn' d Hd) as [_ Hnd]. by eapply (IH d Hd).
  - exfalso. apply indexes_unfold in Hx as [-> | (c' & Hc' & Hx)].
    + simpl in Hex. apply drop_elem in Hex. tauto.
    + apply each_children in Hc' as (j & d & Hd & ->).
      destruct (Hn' d Hd) as [_ Hnd]. by eapply remove_absent.
  - apply indexes_unfold in Hx as [-> | (c' & Hc' & Hx)]; [done|].
    apply each_children in Hc' as (j & d & Hd & ->).
    destruct (Hn' d Hd) as [Hs Hnd].
    eapply add_sound; [done | | done..]. intros Hed. by apply He, Hs.
  - exfalso. by eapply (nested_absent e _ Hn He x).
Qed.

(** After a reindexing pass for a tracked entity, every derived index
    that holds the entity matches the test subject, and an index derived
    from the World itself holds the entity exactly when it matches. *)
Lemma evaluate_reindexes e future w :
  Nested w → World.has e w = true →
  (∀ x, x ∈ World.derived (World.evaluate e future w) →
        e ∈ Bucket.members x →
        Bucket.matches (Bucket.query x) (default (World.fields w e) future) = true)
  ∧ (∀ x, x ∈ World.archetypes (World.evaluate e future w) →
          (e ∈ Bucket.members x ↔
           Bucket.matches (Bucket.query x) (default (World.fields w e) future) = true)).
Proof.
  intros Hn Hhas. split.
  - intros x Hx Hex. apply derived_evaluate in Hx.
    by eapply evaluate_sound.
  - intros x. rewrite evaluate_spec. cbn [World.archetypes].
    unfold World.has, Bucket.has in Hhas. simpl in Hhas. simpl.
    rewrite Hhas. simpl. intros Hx.
    apply each_children in Hx as (j & c & _ & ->).
    rewrite evaluate_members, evaluate_query. split.
    + intros [[Hne _] | [_ Hm]]; done.
    + intros Hm. by right.
Qed.

(** What [update] does to a tracked entity: it mutates it and runs the
    reindexing pass on the result. *)
Lemma update_tracked e u w :
  World.has e w = true →
  ∃ w1, World.root w1 = World.root w
        ∧ (World.update e u w).2 = World.evaluate e None w1.
Proof.
  intros Hhas. unfold World.update. cbn [snd].
  destruct u as [|f|c v|p];
    [| destruct (f (World.fields w e)).2 | |];
    match goal with
    | |- context [World.has e ?x] =>
        change (World.has e x) with (World.has e w); rewrite Hhas; by exists x
    end.
Qed.

(** X9.  [update] reindexes: after [update] of a tracked entity, in any of
    its call shapes, every derived index that holds the entity has a
    specification the entity's fields now match, and an index derived from
    the World itself holds the entity exactly when they match. *)
Theorem update_reindexes e u w :
  World.Reachable w →
  World.has e w = true →
  (∀ x, x ∈ World.derived (World.update e u w).2 →
        e ∈ Bucket.members x →
        Bucket.matches (Bucket.query x) (World.fields (World.update e u w).2 e) = true)
  ∧ (∀ x, x ∈ World.archetypes (World.update e u w).2 →
          (e ∈ Bucket.members x ↔
           Bucket.matches (Bucket.query x) (World.fields (World.update e u w).2 e) = true)).
Proof.
  intros Hw Hhas. destruct (update_tracked e u w Hhas) as (w1 & Hroot & ->).
  rewrite fields_evaluate.
  assert (Nested w1) as Hn.
  { unfold Nested. rewrite Hroot. by apply Nested_reachable. }
  assert (World.has e w1 = true) as Hhas1.
  { unfold World.has. by rewrite Hroot. }
  exact (evaluate_reindexes e None w1 Hn Hhas1).
Qed.

(** The test of World.test.ts, lines 94-105: the entity is given an age
    behind the World's back, and [update(entity)] brings the index up to
    date. *)
Lemma update_reindexes_witness :
  let stale := World.write 1 (delete "age" Demo.john) Demo.world in
  map Bucket.members (World.archetypes stale) = [[1; 2]; [3]]%positive
  ∧ map Bucket.members (World.archetypes (World.update 1 World.UNothing stale).2)
    = [[2]; [3; 1]]%positive
  ∧ ∀ x, x ∈ World.archetypes (World.update 1 World.UNothing stale).2 →
         (1%positive ∈ Bucket.members x ↔
          Bucket.matches (Bucket.query x)
            (World.fields (World.update 1 World.UNothing stale).2 1) = true).
Proof.
  intros stale.
  assert (World.Reachable stale) as Hw.
  { apply (World.reachable_step (World.OMutate 1 (delete "age" Demo.john))).
    apply Demo_reachable. }
  assert (World.has 1 stale = true) as Hhas by (vm_compute; reflexivity).
  destruct (update_reindexes 1 World.UNothing stale Hw Hhas) as [_ Htop].
  split; [vm_compute; reflexivity|]. split; [vm_compute; reflexivity | exact Htop].
Defined.

(** X10.  [addComponent] of an absent component and [removeComponent] of
    a present one reindex a tracked entity: afterwards every derived index
    that holds the entity matches the fields the entity now has, and an
    index derived from the World itself holds it exactly when they match. *)
Theorem component_change_reindexes e c v w :
  World.Reachable w →
  World.has e w = true →
  (present (World.fields w e) c = false →
   ∀ x, x ∈ World.derived (World.addComponent e c v w) →
     (e ∈ Bucket.members x →
      Bucket.matches (Bucket.query x) (World.fields (World.addComponent e c v w) e) = true)
     ∧ (x ∈ World.archetypes (World.addComponent e c v w) →
        Bucket.matches (Bucket.query x) (World.fields (World.addComponent e c v w) e) = true →
        e ∈ Bucket.members x))
  ∧ (present (World.fields w e) c = true →
     ∀ x, x ∈ World.derived (World.removeComponent e c w) →
       (e ∈ Bucket.members x →
        Bucket.matches (Bucket.query x) (World.fields (World.removeComponent e c w) e) = true)
       ∧ (x ∈ World.archetypes (World.removeComponent e c w) →
          Bucket.matches (Bucket.query x) (World.fields (World.removeComponent e c w) e) = true →
          e ∈ Bucket.members x)).
Proof.
  intros Hw Hhas. pose proof (Nested_reachable w Hw) as Hn. split.
  - intros Habs x.
    rewrite addComponent_fields, Habs.
    assert (World.addComponent e c v w
            = World.evaluate e None (World.write e (<[c := v]> (World.fields w e)) w))
      as ->.
    { unfold World.addComponent. unfold present in Habs.
      apply negb_false_iff in Habs. rewrite Habs. cbn [negb].
      change (World.has e (World.write e ?o w)) with (World.has e w).
      by rewrite Hhas. }
    destruct (evaluate_reindexes e None
                (World.write e (<[c := v]> (World.fields w e)) w) Hn Hhas)
      as [Hsound Htop].
    rewrite fields_write_eq in Hsound, Htop. cbn [default] in Hsound, Htop.
    intros Hx. split; [by apply Hsound|]. intros Hx'. by apply Htop.
  - intros Hpres x.
    rewrite removeComponent_fields, Hpres.
    assert (World.removeComponent e c w
            = World.write e (delete c (World.fields w e))
                (World.evaluate e (Some (delete c (World.fields w e))) w)) as ->.
    { unfold World.removeComponent. unfold present in Hpres.
      apply negb_true_iff in Hpres. rewrite Hpres, Hhas.
      by rewrite fields_evaluate. }
    change (World.derived (World.write e ?o ?x)) with (World.derived x).
    change (World.archetypes (World.write e ?o ?x)) with (World.archetypes x).
    destruct (evaluate_reindexes e (Some (delete c (World.fields w e))) w Hn Hhas)
      as [Hsound Htop]. cbn [default] in Hsound, Htop.
    intros Hx. split; [by apply Hsound|]. intros Hx'. by apply Htop.
Qed.

(** The tests of World.test.ts, lines 147-157 and 179-188. *)
Lemma component_change_reindexes_witness :
  map Bucket.members (World.archetypes (World.removeComponent 1 "age" Demo.world))
  = [[2]; [3; 1]]%positive
  ∧ ∀ x, x ∈ World.derived (World.removeComponent 1 "age" Demo.world) →
         1%positive ∈ Bucket.members x →
         Bucket.matches (Bucket.query x)
           (World.fields (World.removeComponent 1 "age" Demo.world) 1) = true.
Proof.
  assert (World.has 1 Demo.world = true) as Hhas by (vm_compute; reflexivity).
  assert (present (World.fields Demo.world 1) "age" = true) as Hpres
    by (vm_compute; reflexivity).
  destruct (component_change_reindexes 1 "age" VUndefined Demo.world Demo_reachable Hhas)
    as [_ Hremove].
  split; [vm_compute; reflexivity|].
  intros x Hx. exact (proj1 (Hremove Hpres x Hx)).
Defined.

(** * Properties of the React bindings *)

Lemma drop_appended e l : e ∉ l → Bucket.drop e (l ++ [e]) = l.
Proof.
  intros Hl. unfold Bucket.drop. rewrite filter_app.
  fold (Bucket.drop e l). rewrite (drop_absent e l Hl).
  rewrite filter_cons_False, filter_nil by (intros H; by apply H).
  apply app_nil_r.
Qed.

Lemma derived_remove e w x :
  x ∈ World.derived (World.remove e w) →
  x ∈ Bucket.indexes (Bucket.remove [] (World.fields w e) e (World.root w)).1.
Proof.
  unfold World.derived, World.remove.
  destruct (deliver_all_frame
    (Bucket.remove [] (World.fields w e) e (World.root w)).2
    (World.with_root (Bucket.remove [] (World.fields w e) e (World.root w)).1 w))
    as (_ & _ & -> & _).
  cbn [World.with_root World.archetypes].
  destruct (Bucket.remove [] (World.fields w e) e (World.root w)).1 as [q ms cs].
  cbn [Bucket.children]. intros Hx.
  apply list_elem_of_In, in_flat_map in Hx as (d & Hd & Hx).
  apply indexes_unfold. right. exists d. by split; apply list_elem_of_In.
Qed.

(** After [remove(e)] the entity is in no bucket, has no number, and is
    what it was. *)
Lemma remove_clears e w :
  World.Reachable w →
  World.has e (World.remove e w) = false
  ∧ World.id e (World.remove e w) = (None, World.remove e w)
  ∧ (∀ n, World.entity n (World.remove e w) ≠ Some e)
  ∧ (∀ x, x ∈ World.derived (World.remove e w) → e ∉ Bucket.members x)
  ∧ World.fields (World.remove e w) e = World.fields w e.
Proof.
  intros Hw. pose proof (has_remove e w) as Hgone.
  split; [done|]. split; [by apply id_untracked|]. split; [|split].
  - intros n Hent.
    assert (World.Reachable (World.remove e w)) as Hw'.
    { by apply (World.reachable_step (World.ORemove e)). }
    destruct (id_of_entity n e _ Hw' Hent) as [Hhas _]. congruence.
  - intros x Hx. apply derived_remove in Hx.
    eapply remove_absent; [|done]. by apply Nested_reachable.
  - unfold World.fields. by rewrite remove_store.
Qed.

(** X11.  The effect of [<Entity>]: for an entity the World already tracks
    it does nothing and returns no cleanup, so unmounting leaves the entity
    in the World; for an untracked entity it adds the entity and returns
    [remove] as cleanup.  Whatever happens between mount and unmount, after
    the cleanup the entity is in no bucket and has no id, with its fields
    untouched by the removal; and a mount followed at once by the unmount
    leaves the sequence of tracked entities as it was. *)
Theorem entityEffect_mount_unmount e w :
  World.Reachable w →
  (World.has e w = true → ReactAPI.entityEffect e w = (w, None))
  ∧ (World.has e w = false →
     ReactAPI.entityEffect e w = ((World.add e w).2, Some (World.remove e))
     ∧ World.has e (World.add e w).2 = true
     ∧ World.entities (World.remove e (World.add e w).2) = World.entities w
     ∧ ∀ ops,
         let before := World.run ops (World.add e w).2 in
         let after := World.remove e before in
         World.has e after = false
         ∧ World.id e after = (None, after)
         ∧ (∀ n, World.entity n after ≠ Some e)
         ∧ (∀ x, x ∈ World.derived after → e ∉ Bucket.members x)
         ∧ World.fields after e = World.fields before e).
Proof.
  intros Hw. unfold ReactAPI.entityEffect. split; [by intros ->|].
  intros Hhas. rewrite Hhas. split; [done|]. split; [apply has_add|]. split.
  - rewrite remove_entities, add_entities, Hhas. apply drop_appended.
    intros Hin. apply has_elem in Hin. congruence.
  - intros ops. apply remove_clears.
    apply Reachable_run. by apply (World.reachable_step (World.OAdd e)).
Qed.

Lemma entityEffect_mount_unmount_witness :
  World.has 4 Demo.world = false
  ∧ World.entities (World.remove 4 (World.add 4 Demo.world).2) = World.entities Demo.world
  ∧ World.id 4 (World.remove 4 (World.run [World.OId 4] (World.add 4 Demo.world).2))
    = (None, World.remove 4 (World.run [World.OId 4] (World.add 4 Demo.world).2)).
Proof.
  assert (World.has 4 Demo.world = false) as Hhas by (vm_compute; reflexivity).
  destruct (entityEffect_mount_unmount 4 Demo.world Demo_reachable) as [_ Hmount].
  destruct (Hmount Hhas) as (_ & _ & Hsame & Hafter).
  destruct (Hafter [World.OId 4]) as (_ & Hid & _).
  split; [exact Hhas|]. split; [exact Hsame | exact Hid].
Defined.






Lemma id_keeps e e' n w :
  World.entityToId w !! e' = Some n →
  World.entityToId (World.id e w).2 !! e' = Some n.
Proof.
  intros Hid. unfold World.id. destruct (World.has e w); cbn [negb snd]; [|done].
  case_bool_decide as He; cbn [negb]; [done|]. simpl.
  rewrite lookup_insert_ne; [done|]. intros ->. apply He. eauto.
Qed.

Lemma id_result e w : World.has e w = true →
  (World.id e w).1 = World.entityToId (World.id e w).2 !! e
  ∧ is_Some (World.entityToId (World.id e w).2 !! e).
Proof.
  intros Hhas. destruct (World.entityToId w !! e) as [n|] eqn:Hid.
  - rewrite (id_known e n) by done. simpl. rewrite Hid. eauto.
  - rewrite id_fresh by done. simpl. rewrite lookup_insert_eq. eauto.
Qed.

(** The keys are the numbers the table holds once all of them have been
    asked for. *)
Lemma keys_table es : ∀ w,
  World.Reachable w →
  (∀ e, e ∈ es → World.has e w = true) →
  World.Reachable (ReactAPI.keys es w).2
  ∧ World.entities (ReactAPI.keys es w).2 = World.entities w
  ∧ (∀ e n, World.entityToId w !! e = Some n →
            World.entityToId (ReactAPI.keys es w).2 !! e = Some n)
  ∧ (ReactAPI.keys es w).1
    = map (λ e, World.entityToId (ReactAPI.keys es w).2 !! e) es
  ∧ (∀ e, e ∈ es → is_Some (World.entityToId (ReactAPI.keys es w).2 !! e)).
Proof.
  induction es as [|e es IH]; intros w Hw Hall; simpl.
  - repeat split; try done. intros e He. by apply elem_of_nil in He.
  - assert (World.has e w = true) as Hhas by (apply Hall; left).
    assert (World.Reachable (World.id e w).2) as Hw1.
    { by apply (World.reachable_step (World.OId e)). }
    destruct (IH (World.id e w).2 Hw1) as (Hr & Hent & Hmono & Hkeys & Hsome).
    { intros e' He'. unfold World.has, Bucket.has. simpl. rewrite id_entities.
      apply (Hall e'). by right. }
    destruct (id_result e w Hhas) as [Hres [n Hn]].
    split; [done|]. split; [by rewrite Hent, id_entities|]. split; [|split].
    + intros e' m Hm. by apply Hmono, id_keeps.
    + rewrite Hres, Hn, (Hmono _ _ Hn). by rewrite <- Hkeys.
    + intros e' [-> | He']%elem_of_cons; [|by apply Hsome].
      rewrite (Hmono _ _ Hn). eauto.
Qed.

(** X14.  The keys [<Entities>] computes with [world.id] for a list of
    distinct tracked entities are all defined and pairwise distinct, one per
    entity; computing them does not change which entities are tracked. *)
Theorem keys_distinct es w :
  World.Reachable w →
  NoDup es →
  (∀ e, e ∈ es → World.has e w = true) →
  NoDup (ReactAPI.keys es w).1
  ∧ Forall is_Some (ReactAPI.keys es w).1
  ∧ length (ReactAPI.keys es w).1 = length es
  ∧ World.entities (ReactAPI.keys es w).2 = World.entities w.
Proof.
  intros Hw Hnd Hall.
  destruct (keys_table es w Hw Hall) as (Hr & Hent & _ & Hkeys & Hsome).
  destruct (Inverse_reachable _ Hr) as [Hinv _].
  rewrite Hkeys. split; [|split; [|split]].
  - apply (NoDup_fmap_2_strong _ es); [|done].
    intros e1 e2 H1 H2 Heq. destruct (Hsome e1 H1) as [n Hn].
    rewrite Hn in Heq. symmetry in Heq.
    apply Hinv in Hn. apply Hinv in Heq. congruence.
  - apply Forall_forall. intros k Hk.
    apply list_elem_of_In, in_map_iff in Hk as (e & <- & He).
    apply Hsome. by apply list_elem_of_In.
  - apply length_map.
  - done.
Qed.

Lemma keys_distinct_witness :
  (ReactAPI.keys [3; 1; 2]%positive Demo.world).1 = [Some 0; Some 1; Some 2]
  ∧ NoDup (ReactAPI.keys [3; 1; 2]%positive Demo.world).1.
Proof.
  assert (NoDup [3; 1; 2]%positive) as Hnd.
  { by apply (bool_decide_unpack _). }
  assert (∀ e, e ∈ [3; 1; 2]%positive → World.has e Demo.world = true) as Hall.
  { intros e He. repeat (apply elem_of_cons in He as [-> | He]; [vm_compute; reflexivity|]).
    by apply elem_of_nil in He. }
  destruct (keys_distinct [3; 1; 2]%positive Demo.world Demo_reachable Hnd Hall)
    as (Hdistinct & _).
  split; [vm_compute; reflexivity | exact Hdistinct].
Defined.

(** X15.  For entities the World does not track, every key [<Entities>]
    computes is undefined, so any two of them get the same key; the World is
    left unchanged. *)
Theorem keys_untracked es w :
  (∀ e, e ∈ es → World.has e w = false) →
  ReactAPI.keys es w = (replicate (length es) None, w).
Proof.
  revert w. induction es as [|e es IH]; intros w Hall; simpl; [done|].
  rewrite (id_untracked e w) by (apply Hall; left). cbn [fst snd].
  rewrite IH by (intros e' He'; apply Hall; by right). done.
Qed.

Lemma keys_untracked_witness :
  ReactAPI.keys [4; 5]%positive Demo.world = ([None; None], Demo.world).
Proof.
  apply (keys_untracked [4; 5]%positive Demo.world).
  intros e He. repeat (apply elem_of_cons in He as [-> | He]; [vm_compute; reflexivity|]).
  by apply elem_of_nil in He.
Defined.

(** * Properties of the documentation site *)

Lemma append_length (s t : string) :
  String.length (String.append s t) = String.length s + String.length t.
Proof. induction s as [|a s IH]; simpl; [done | by rewrite IH]. Qed.

Lemma stripMarkdown_extension p ext :
  ext = ".md"%string ∨ ext = ".mdx"%string →
  Site.stripMarkdown (String.append p ext) = p.
Proof.
  intros Hext. induction p as [|a p IH].
  - by destruct Hext as [-> | ->].
  - change (String.append (String a p) ext) with (String a (String.append p ext)).
    cbn [Site.stripMarkdown].
    assert (String.eqb (String a (String.append p ext)) ".md" = false) as ->.
    { apply String.eqb_neq. intros Heq. apply (f_equal String.length) in Heq.
      simpl in Heq. rewrite append_length in Heq.
      destruct Hext as [-> | ->]; simpl in Heq; lia. }
    assert (String.eqb (String a (String.append p ext)) ".mdx" = false) as ->.
    { apply String.eqb_neq. intros Heq. pose proof (f_equal String.length Heq) as Hlen.
      simpl in Hlen. rewrite append_length in Hlen.
      destruct Hext as [-> | ->]; simpl in Hlen; [|lia].
      destruct p; [discriminate | simpl in Hlen; lia]. }
    cbn [orb]. by rewrite IH.
Qed.

(** X16.  The link of a page is the path of its file below [./routes]
    without the extension: a file [./routes<p>.md] or [./routes<p>.mdx] is
    linked as [<p>], whatever [<p>] is, dots and further extensions in it
    included. *)
Theorem href_of_route p :
  Site.href (String.append "./routes" (String.append p ".mdx")) = p
  ∧ Site.href (String.append "./routes" (String.append p ".md")) = p.
Proof.
  unfold Site.href. cbn [String.length String.append Site.slice].
  split; apply stripMarkdown_extension; [by right | by left].
Qed.
